(** * Valid correlation with down-sampling (validCorrDn3 / svalidconvolve)
    and the scalar MEX utilities of mt_model_HS1998.

    C [int] arithmetic is modelled in [Z] with every result checked: a signed
    overflow or a division by zero is undefined in C, and the model returns
    [None] (or an [Undefined] error) there.  [size_t] / [mwSize] arithmetic
    is unsigned 64-bit and its wrap-around is written out.
    Out-of-range buffer accesses are undefined in C; the model reads a
    default value there and ignores out-of-range writes. *)

From Stdlib Require Import ZArith Lia Floats.
From stdpp Require Import base list.

Open Scope Z_scope.

(** ** C [for] loops *)

(** [loop n i body s] runs [body i], [body (i+1)], ... [n] times. *)
Fixpoint loop {S : Type} (n : nat) (i : Z) (body : Z -> S -> S) (s : S) : S :=
  match n with
  | O => s
  | Datatypes.S n' => loop n' (i + 1) body (body i s)
  end.

(** [for (i = lo; i < hi; i++) s = body(i, s);] -- no iteration when [hi <= lo]. *)
Definition for_lt {S : Type} (lo hi : Z) (body : Z -> S -> S) (s : S) : S :=
  loop (Z.to_nat (hi - lo)) lo body s.

(** The integers [lo, lo+1, ..., hi-1]. *)
Definition zrange (lo hi : Z) : list Z :=
  map (fun k => lo + Z.of_nat k) (seq 0 (Z.to_nat (hi - lo))).

(** ** C [int] arithmetic *)

(** The value of an [int] expression whose operands are [int]s: [None] when
    the exact result does not fit in 32 bits, an undefined signed overflow. *)
Definition ck (z : Z) : option Z :=
  if (- 2 ^ 31 <=? z) && (z <? 2 ^ 31) then Some z else None.

(** [x * s + f] on [int]s. *)
Definition mul_add (x s f : Z) : option Z :=
  p ← ck (x * s); ck (p + f).

(** [a + b * d1 + c * d1 * d2] on [int]s, evaluated as C groups it:
    [(a + (b * d1)) + ((c * d1) * d2)]. *)
Definition index3 (a b c d1 d2 : Z) : option Z :=
  p ← ck (b * d1); q ← ck (a + p); r ← ck (c * d1); u ← ck (r * d2); ck (q + u).

(** [int x_res_dim = (x_idim - x_fdim) / x_step + 1;]: C division truncates;
    a zero divisor and an overflow are undefined. *)
Definition res_dim_c (idim fdim step : Z) : option Z :=
  d ← ck (idim - fdim);
  q ← (if step =? 0 then None else ck (Z.quot d step));
  ck (q + 1).

(** A [for] loop whose body may reach undefined behaviour ([None]), which
    ends the execution.  The increment [i++] of a counter below an [int]
    bound cannot overflow. *)
Definition for_lt_opt {S : Type} (lo hi : Z) (body : Z -> S -> option S) (s : S) : option S :=
  for_lt lo hi (fun i o => o ≫= body i) (Some s).

(** ** The correlation kernel, generic in the scalar type *)

Section Correlation.

Context {R : Type} (zero : R) (add mul : R -> R -> R).

(** [buf[i]] for a [double *] buffer. *)
Definition rd (buf : list R) (i : Z) : R :=
  if i <? 0 then zero else default zero (buf !! Z.to_nat i).

(** [buf[i] = v]. *)
Definition wr (buf : list R) (i : Z) (v : R) : list R :=
  if i <? 0 then buf else <[Z.to_nat i := v]> buf.

(** The body of the three filter loops: the accumulated [sum] at output
    position [(x, y, t)]. *)
Definition window_sum (image : list R) (x_idim y_idim : Z)
    (filt : list R) (x_fdim y_fdim t_fdim : Z)
    (x_step y_step t_step : Z) (x y t : Z) : option R :=
  for_lt_opt 0 t_fdim (fun ft sum =>
    for_lt_opt 0 y_fdim (fun fy sum =>
      for_lt_opt 0 x_fdim (fun fx sum =>
        img_x ← mul_add x x_step fx;
        img_y ← mul_add y y_step fy;
        img_t ← mul_add t t_step ft;
        i ← index3 img_x img_y img_t x_idim y_idim;
        f ← index3 fx fy ft x_fdim y_fdim;
        let img_value := rd image i in
        let filt_value := rd filt f in
        Some (add sum (mul img_value filt_value))) sum) sum) zero.

(** [valid_filter] of svalidconvolve.c; the [result] buffer is threaded
    through the loops (the C function returns 0); [None] when the execution
    reaches undefined behaviour. *)
Definition valid_filter (image : list R) (x_idim y_idim t_idim : Z)
    (filt : list R) (x_fdim y_fdim t_fdim : Z)
    (x_step y_step t_step : Z) (result : list R) : option (list R) :=
  x_res_dim ← res_dim_c x_idim x_fdim x_step;
  y_res_dim ← res_dim_c y_idim y_fdim y_step;
  t_res_dim ← res_dim_c t_idim t_fdim t_step;
  for_lt_opt 0 t_res_dim (fun t result =>
    for_lt_opt 0 y_res_dim (fun y result =>
      for_lt_opt 0 x_res_dim (fun x result =>
        sum ← window_sum image x_idim y_idim filt x_fdim y_fdim t_fdim
                x_step y_step t_step x y t;
        i ← index3 x y t x_res_dim y_res_dim;
        Some (wr result i sum))
      result) result) result.

(** *** The same loops with every [int] expression computed exactly

    When [valid_filter] is defined, these are its values (lemmas
    [valid_filter_refine] and [valid_filter_defined] below). *)

(** [(x_idim - x_fdim) / x_step + 1] in exact arithmetic, C division truncating. *)
Definition res_dim (idim fdim step : Z) : Z := Z.quot (idim - fdim) step + 1.

Definition window_sum_exact (image : list R) (x_idim y_idim : Z)
    (filt : list R) (x_fdim y_fdim t_fdim : Z)
    (x_step y_step t_step : Z) (x y t : Z) : R :=
  for_lt 0 t_fdim (fun ft sum =>
    for_lt 0 y_fdim (fun fy sum =>
      for_lt 0 x_fdim (fun fx sum =>
        let img_x := x * x_step + fx in
        let img_y := y * y_step + fy in
        let img_t := t * t_step + ft in
        let img_value := rd image (img_x + img_y * x_idim + img_t * x_idim * y_idim) in
        let filt_value := rd filt (fx + fy * x_fdim + ft * x_fdim * y_fdim) in
        add sum (mul img_value filt_value)) sum) sum) zero.

Definition valid_filter_exact (image : list R) (x_idim y_idim t_idim : Z)
    (filt : list R) (x_fdim y_fdim t_fdim : Z)
    (x_step y_step t_step : Z) (result : list R) : list R :=
  let x_res_dim := res_dim x_idim x_fdim x_step in
  let y_res_dim := res_dim y_idim y_fdim y_step in
  let t_res_dim := res_dim t_idim t_fdim t_step in
  for_lt 0 t_res_dim (fun t result =>
    for_lt 0 y_res_dim (fun y result =>
      for_lt 0 x_res_dim (fun x result =>
        let sum := window_sum_exact image x_idim y_idim filt x_fdim y_fdim t_fdim
                     x_step y_step t_step x y t in
        wr result (x + y * x_res_dim + t * x_res_dim * y_res_dim) sum)
      result) result) result.

(** *** The correlation as the spec words it (for the refinement claim) *)

(** Column-major linear index [sum_i coord_i * prod_{j<i} dim_j];
    [acc] is the running product [prod_{j<i} dim_j]. *)
Fixpoint linear_from (acc : Z) (dims coord : list Z) : Z :=
  match dims, coord with
  | d :: ds, c :: cs => c * acc + linear_from (acc * d) ds cs
  | _, _ => 0
  end.

Definition linear (dims coord : list Z) : Z := linear_from 1 dims coord.

(** All coordinates of an array of extents [dims], first axis innermost
    (varying fastest), last axis outermost. *)
Fixpoint coords (dims : list Z) : list (list Z) :=
  match dims with
  | [] => [[]]
  | d :: ds => flat_map (fun rest => map (fun c => c :: rest) (zrange 0 d)) (coords ds)
  end.

(** The resolved output shape: [floor((in - k) / s) + 1] per convolved axis. *)
Definition out_shape (in_dims kernel_dims stride : list Z) : list Z :=
  zip_with (fun ik s => (fst ik - snd ik) / s + 1) (zip in_dims kernel_dims) stride.

(** Plain left-to-right accumulation of [in[window + offset] * kernel[offset]]
    over the kernel coordinates, from [zero], with [window = coord * stride]. *)
Definition correlate_at (inp : list R) (in_dims : list Z)
    (kernel : list R) (kernel_dims stride coord : list Z) : R :=
  let window := zip_with Z.mul coord stride in
  fold_left (fun sum offset =>
      add sum (mul (rd inp (linear in_dims (zip_with Z.add window offset)))
                   (rd kernel (linear kernel_dims offset))))
    (coords kernel_dims) zero.

End Correlation.

Arguments rd {R} zero buf i.
Arguments wr {R} buf i v.

(** ** Doubles, C casts and unsigned arithmetic *)

Open Scope float_scope.

(** The correlation kernel at IEEE-754 binary64 ([double]). *)
Definition valid_filter_d := valid_filter 0 PrimFloat.add PrimFloat.mul.

Close Scope float_scope.

(** Truncation toward zero of a finite double ([None] for NaN and infinities). *)
Definition trunc_double (d : float) : option Z :=
  match Prim2SF d with
  | S754_zero _ => Some 0
  | S754_finite s m e =>
      let a := if 0 <=? e then Z.shiftl (Zpos m) e else Z.shiftr (Zpos m) (- e) in
      Some (if s then - a else a)
  | _ => None
  end.

(** [(int)d]: defined only when the truncated value fits in [int]. *)
Definition cast_int (d : float) : option Z :=
  match trunc_double d with
  | Some z => if (- 2 ^ 31 <=? z) && (z <? 2 ^ 31) then Some z else None
  | None => None
  end.

(** [(size_t)d]: defined only when the truncated value fits in [size_t]. *)
Definition cast_size_t (d : float) : option Z :=
  match trunc_double d with
  | Some z => if (0 <=? z) && (z <? 2 ^ 64) then Some z else None
  | None => None
  end.

(** Unsigned 64-bit wrap-around ([size_t], [mwSize]). *)
Definition u64 (z : Z) : Z := z mod 2 ^ 64.

(** [(int)] of an [mwSize]: the value modulo [2^32], read as signed
    (implementation-defined in C; this is what gcc and clang do). *)
Definition to_int32 (z : Z) : Z :=
  let m := z mod 2 ^ 32 in if m <? 2 ^ 31 then m else m - 2 ^ 32.

(** ** MATLAB arrays *)

Record mxArray := MxArray {
  mx_numeric : bool;
  mx_double : bool;
  mx_sparse : bool;
  mx_complex : bool;
  mx_dims : list Z;     (** [mxGetDimensions] *)
  mx_pr : list float    (** [mxGetPr] *)
}.

Definition mxGetNumberOfDimensions (a : mxArray) : Z := Z.of_nat (length (mx_dims a)).
Definition mxGetNumberOfElements (a : mxArray) : Z := u64 (foldr Z.mul 1 (mx_dims a)).
Definition mxGetM (a : mxArray) : Z := default 0 (mx_dims a !! 0%nat).
Definition mxGetN (a : mxArray) : Z := u64 (foldr Z.mul 1 (drop 1 (mx_dims a))).

(** The largest number of elements of a MATLAB array on 64-bit platforms. *)
Definition max_numel : Z := 2 ^ 48 - 1.

(** A well-formed real array: its data buffer has one double per element,
    and it has at least two dimensions, as MATLAB reports them. *)
Definition mx_wf (a : mxArray) : Prop :=
  (2 <= length (mx_dims a))%nat /\ Forall (fun d => 0 <= d) (mx_dims a) /\
  foldr Z.mul 1 (mx_dims a) <= max_numel /\
  Z.of_nat (length (mx_pr a)) = foldr Z.mul 1 (mx_dims a).

(** [drop_ones n rdims] removes up to [n] leading [1]s of [rdims]. *)
Fixpoint drop_ones (n : nat) (rdims : list Z) : list Z :=
  match n, rdims with
  | Datatypes.S n', d :: rdims' => if d =? 1 then drop_ones n' rdims' else rdims
  | _, _ => rdims
  end.

(** The dimensions of an array that [mxCreateNumericArray] creates from a
    dimension vector of [ndim >= 2] entries: MATLAB removes the trailing
    singleton dimensions past the second. *)
Definition mx_create_dims (dims : list Z) : list Z :=
  rev (drop_ones (length dims - 2) (rev dims)).

(** A real, dense double array built from its dimensions and data. *)
Definition dbl (dims : list Z) (data : list float) : mxArray :=
  MxArray true true false false dims data.

(** ** validCorrDn3.c *)

Module ValidCorrDn3.

(** The error identifiers passed to [mexErrMsgIdAndTxt], and the points
    where C leaves the behaviour undefined. *)
Inductive error :=
  | InvalidNumInputs | InvalidImage | InvalidFilter | InvalidStep
  | OutOfMemory | Undefined.

Inductive result (A : Type) :=
  | Ok (a : A)
  | Err (e : error).
Arguments Ok {A} a.
Arguments Err {A} e.

Definition bind {A B} (m : result A) (k : A -> result B) : result B :=
  match m with Ok a => k a | Err e => Err e end.


(** [for (i = 0; i < ndims && i < 4; i++) dims[i] = pdim[i];] over the
    default [{1, 1, 1, 1}]. *)
Definition read_dims (a : mxArray) : list Z :=
  take 4 (mx_dims a) ++ drop (length (mx_dims a)) [1; 1; 1; 1].

(** [step[i] = (int)step_data[i];] for [i < 3]. *)
Definition read_step (a : mxArray) : result (list Z) :=
  let go i := match cast_int (default 0%float (mx_pr a !! i)) with
              | Some s => Ok s | None => Err Undefined end in
  bind (go 0%nat) (fun s0 => bind (go 1%nat) (fun s1 =>
    bind (go 2%nat) (fun s2 => Ok [s0; s1; s2]))).

(** [validateInputs]: returns the image, the filter, their dimension
    vectors and the step vector. *)
Definition validateInputs (prhs : list mxArray)
    : result (mxArray * mxArray * list Z * list Z * list Z) :=
  match prhs with
  | image :: filter :: rest =>
      if negb (mx_double image) || mx_sparse image || mx_complex image
      then Err InvalidImage else
      if negb (mx_double filter) || mx_sparse filter || mx_complex filter
      then Err InvalidFilter else
      let image_dims := read_dims image in
      let filter_dims := read_dims filter in
      match rest with
      | [] => Ok (image, filter, image_dims, filter_dims, [1; 1; 1])
      | stp :: _ =>
          if negb (mx_double stp) || negb (mxGetNumberOfElements stp =? 3)
          then Err InvalidStep else
          bind (read_step stp) (fun step =>
            Ok (image, filter, image_dims, filter_dims, step))
      end
  | _ => Err InvalidNumInputs
  end.

(** [result_dims[i] = (image_dims[i] - filter_dims[i]) / step[i] + 1;] in
    [mwSize]: the [int] step is converted to [mwSize]; a zero divisor is
    undefined. *)
Definition calc_dim (idim fdim step : Z) : option Z :=
  let s := u64 step in
  if s =? 0 then None else Some (u64 (u64 (idim - fdim) / s + 1)).

Definition calculateOutputDimensions (image_dims filter_dims step : list Z)
    : option (list Z) :=
  let nth3 l i := default 0 (l !! i) in
  match calc_dim (nth3 image_dims 0%nat) (nth3 filter_dims 0%nat) (nth3 step 0%nat),
        calc_dim (nth3 image_dims 1%nat) (nth3 filter_dims 1%nat) (nth3 step 1%nat),
        calc_dim (nth3 image_dims 2%nat) (nth3 filter_dims 2%nat) (nth3 step 2%nat) with
  | Some r0, Some r1, Some r2 => Some [r0; r1; r2; nth3 image_dims 3%nat]
  | _, _, _ => None
  end.

(** [performValidCorrelation]: the [mwSize] extents are passed as [int]. *)
Definition performValidCorrelation (image filter result : list float)
    (image_dims filter_dims step : list Z) : option (list float) :=
  let g l i := to_int32 (default 0 (l !! i)) in
  let s i := default 0 (step !! i) in
  valid_filter_d image (g image_dims 0%nat) (g image_dims 1%nat) (g image_dims 2%nat)
    filter (g filter_dims 0%nat) (g filter_dims 1%nat) (g filter_dims 2%nat)
    (s 0%nat) (s 1%nat) (s 2%nat) result.

(** [mxCreateNumericArray(4, result_dims, mxDOUBLE_CLASS, mxREAL)]: a
    zero-filled array, as its dimensions and data.  When the element count
    exceeds the largest array MATLAB supports, MATLAB aborts the MEX call
    with an out-of-memory error; the model takes memory to be available for
    every array below that size. *)
Definition mxCreateNumericArray (dims : list Z) : result (list Z * list float) :=
  let n := foldr Z.mul 1 dims in
  if max_numel <? n then Err OutOfMemory
  else Ok (mx_create_dims dims, replicate (Z.to_nat n) 0%float).

(** [mexFunction]: the returned array [plhs[0]], as its dimensions and data;
    [performValidCorrelation] fills the data of the created array. *)
Definition mexFunction (prhs : list mxArray) : result (list Z * list float) :=
  bind (validateInputs prhs) (fun '(image, filter, image_dims, filter_dims, step) =>
  match calculateOutputDimensions image_dims filter_dims step with
  | None => Err Undefined
  | Some result_dims =>
      bind (mxCreateNumericArray result_dims) (fun '(dims, result) =>
      match performValidCorrelation (mx_pr image) (mx_pr filter) result
              image_dims filter_dims step with
      | Some data => Ok (dims, data)
      | None => Err Undefined
      end)
  end).

End ValidCorrDn3.

(** [#define notDblMtx(m) (!mxIsNumeric(m) || !mxIsDouble(m) || mxIsSparse(m) || mxIsComplex(m))] *)
Definition notDblMtx (a : mxArray) : bool :=
  negb (mx_numeric a) || negb (mx_double a) || mx_sparse a || mx_complex a.

Definition set_pr (a : mxArray) (data : list float) : mxArray :=
  MxArray (mx_numeric a) (mx_double a) (mx_sparse a) (mx_complex a) (mx_dims a) data.

(** ** destructiveMatrixWriteAtIndices.c *)

Module DestructiveWrite.

(** The [mexErrMsgTxt] calls, in source order, and the undefined cast. *)
Inductive status :=
  | Done | ErrNumArgs | ErrMatrix | ErrNewValues | ErrStartIndex | ErrBounds
  | Undefined.

(** [mexFunction]: the store is the argument list, whose first array is
    updated in place; an error aborts the call with the store as it is. *)
Definition mexFunction (prhs : list mxArray) : status * list mxArray :=
  match prhs with
  | [mtx; newv; st] =>
      if notDblMtx mtx then (ErrMatrix, prhs) else
      if notDblMtx newv then (ErrNewValues, prhs) else
      let numValues := u64 (mxGetM newv * mxGetN newv) in
      if notDblMtx st || negb (mxGetNumberOfElements st =? 1) then (ErrStartIndex, prhs) else
      match cast_size_t (default 0%float (mx_pr st !! 0%nat)) with
      | None => (Undefined, prhs)
      | Some startIndex =>
          let mtxSize := u64 (mxGetM mtx * mxGetN mtx) in
          if (mtxSize <=? startIndex) || (mtxSize <? u64 (startIndex + numValues))
          then (ErrBounds, prhs)
          else
            let data := for_lt 0 numValues (fun i d =>
                          wr d (u64 (startIndex + i)) (rd 0%float (mx_pr newv) i))
                          (mx_pr mtx) in
            (Done, [set_pr mtx data; newv; st])
      end
  | _ => (ErrNumArgs, prhs)
  end.

End DestructiveWrite.

(** ** pointOp.c *)

Module PointOp.

Inductive warning := WarnLeft | WarnRight.

(** The locals of [internal_pointop] that the loop updates, and the
    messages printed with [mexPrintf]. *)
Record state := State {
  res : list float;
  l_unwarned : Z;
  r_unwarned : Z;
  printed : list warning
}.

(** [(double)index] for a [size_t] (round to nearest even). *)
Definition double_of_size (z : Z) : float :=
  SF2Prim (binary_normalize prec emax z 0 false).

Open Scope float_scope.

(** One iteration of the interpolation loop; [None] when the cast of [pos]
    to [size_t] is undefined. *)
Definition interp_step (im lut : list float) (origin increment : float)
    (i : Z) (st : state) : option state :=
  let pos := (rd 0 im i - origin) / increment in
  match cast_size_t pos with
  | None => None
  | Some index0 =>
      (* [if (index < 0)]: never true, [index] is unsigned *)
      let '(index, st) :=
        if (index0 <? 0)%Z then
          let st1 := if negb (l_unwarned st =? 0)%Z
                     then State (res st) 0 (r_unwarned st) (printed st ++ [WarnLeft]) else st in
          let st2 := if negb (r_unwarned st1 =? 0)%Z
                     then State (res st1) (l_unwarned st1) 0 (printed st1 ++ [WarnRight]) else st1 in
          (0%Z, st2)
        else (index0, st) in
      let v := rd 0 lut index + (rd 0 lut (index + 1) - rd 0 lut index)
                                * (pos - double_of_size index) in
      Some (State (wr (res st) i v) (l_unwarned st) (r_unwarned st) (printed st))
  end.

(** [internal_pointop]; [res] is the caller's result buffer. *)
Definition internal_pointop (im res0 : list float) (size : Z) (lut : list float)
    (lutsize : Z) (origin increment : float) (warnings : Z) : option state :=
  let st0 := State res0 warnings warnings [] in
  let _lutsize := u64 (lutsize - 2) in  (* computed, never read *)
  if 0 <? increment then
    for_lt 0 size (fun i st => match st with
                               | Some st => interp_step im lut origin increment i st
                               | None => None
                               end) (Some st0)
  else
    for_lt 0 size (fun i st => match st with
                               | Some st => Some (State (wr (res st) i (rd 0 lut 0%Z))
                                                   (l_unwarned st) (r_unwarned st) (printed st))
                               | None => None
                               end) (Some st0).

Close Scope float_scope.

End PointOp.

(** ** pointOp.c: the MEX entry point *)

Module PointOpMex.

(** The [mexErrMsgTxt] calls, in source order, and the undefined cast. *)
Inductive error :=
  | ErrNumArgs | ErrImage | ErrLut | ErrLutShape | ErrOrigin | ErrIncrement
  | ErrWarnings | Undefined.

Inductive result :=
  | Ok (dims : list Z) (data : list float)
  | Err (e : error).

(** [mexFunction]: the returned matrix [plhs[0]], as its dimensions and data.
    [mxCreateDoubleMatrix] zero-fills the new [x_dim]-by-[y_dim] matrix. *)
Definition mexFunction (prhs : list mxArray) : result :=
  match prhs with
  | image :: lut :: org :: inc :: rest =>
      if notDblMtx image then Err ErrImage else
      let x_dim := mxGetM image in
      let y_dim := mxGetN image in
      if notDblMtx lut then Err ErrLut else
      let lut_size := u64 (mxGetM lut * mxGetN lut) in
      if negb (mxGetM lut =? 1) && negb (mxGetN lut =? 1) then Err ErrLutShape else
      if notDblMtx org || negb (mxGetNumberOfElements org =? 1) then Err ErrOrigin else
      let origin := default 0%float (mx_pr org !! 0%nat) in
      if notDblMtx inc || negb (mxGetNumberOfElements inc =? 1) then Err ErrIncrement else
      let increment := default 0%float (mx_pr inc !! 0%nat) in
      let warnings :=
        match rest with
        | [] => Some (Some 1)
        | w :: _ =>
            if notDblMtx w || negb (mxGetNumberOfElements w =? 1) then None
            else Some (cast_int (default 0%float (mx_pr w !! 0%nat)))
        end in
      match warnings with
      | None => Err ErrWarnings
      | Some None => Err Undefined
      | Some (Some warnings) =>
          let res := replicate (Z.to_nat (u64 (x_dim * y_dim))) 0%float in
          match PointOp.internal_pointop (mx_pr image) res (u64 (x_dim * y_dim))
                  (mx_pr lut) lut_size origin increment warnings with
          | Some st => Ok [x_dim; y_dim] (PointOp.res st)
          | None => Err Undefined
          end
      end
  | _ => Err ErrNumArgs
  end.

End PointOpMex.

(** ** dsqr.c *)

Module Dsqr.

Inductive status := Done | ErrNumArgs | ErrMatrix.

(** [mexFunction]: the store is the argument list, whose array is squared in
    place ([matrix_data[i] *= matrix_data[i]]). *)
Definition mexFunction (prhs : list mxArray) : status * list mxArray :=
  match prhs with
  | [m] =>
      if notDblMtx m then (ErrMatrix, prhs) else
      let num_elements := u64 (mxGetM m * mxGetN m) in
      let data := for_lt 0 num_elements (fun i d =>
                    wr d i (rd 0%float d i * rd 0%float d i)%float) (mx_pr m) in
      (Done, [set_pr m data])
  | _ => (ErrNumArgs, prhs)
  end.

End Dsqr.

(** ** range2.c *)

Module Range2.

(** The [mexErrMsgTxt] calls, and the read of [mtx[0]] in an empty array. *)
Inductive error := ErrNumArgs | ErrMatrix | Undefined.

Inductive result :=
  | Ok (minVal maxVal : float)
  | Err (e : error).

(** One iteration of the scan: [if (temp < minVal) ... else if (temp > maxVal) ...]. *)
Definition scan_step (mtx : list float) (i : Z) (mm : float * float) : float * float :=
  let '(minVal, maxVal) := mm in
  let temp := rd 0%float mtx i in
  if (temp <? minVal)%float then (temp, maxVal)
  else if (maxVal <? temp)%float then (minVal, temp)
  else (minVal, maxVal).

(** [mexFunction]: the two returned scalars. *)
Definition mexFunction (prhs : list mxArray) : result :=
  match prhs with
  | [arg] =>
      if notDblMtx arg then Err ErrMatrix else
      let numElements := u64 (mxGetM arg * mxGetN arg) in
      match mx_pr arg !! 0%nat with
      | None => Err Undefined
      | Some m0 =>
          let '(minVal, maxVal) := for_lt 1 numElements (scan_step (mx_pr arg)) (m0, m0) in
          Ok minVal maxVal
      end
  | _ => Err ErrNumArgs
  end.

End Range2.

(** ** The order of doubles *)

(** A lexicographic key of a non-NaN double: [SFcompare] orders the
    non-NaN values as their keys. *)
Definition fkey (x : spec_float) : Z * Z * Z :=
  match x with
  | S754_infinity true => (0, 0, 0)
  | S754_finite true m e => (1, - e, Zneg m)
  | S754_zero _ => (2, 0, 0)
  | S754_nan => (2, 0, 0)
  | S754_finite false m e => (3, e, Zpos m)
  | S754_infinity false => (4, 0, 0)
  end.

Definition key_lt (k k' : Z * Z * Z) : Prop :=
  let '(a, b, c) := k in
  let '(a', b', c') := k' in
  a < a' \/ (a = a' /\ (b < b' \/ (b = b' /\ c < c'))).

(** * Proofs *)

(** ** Loops as folds *)

Lemma fold_left_ext_eq {A B : Type} (f g : A -> B -> A) (l : list B) (s : A) :
  (forall a b, f a b = g a b) -> fold_left f l s = fold_left g l s.
Proof.
  intros Hfg. revert s. induction l as [|b l IH]; intros s; simpl; [done|].
  rewrite Hfg. apply IH.
Qed.

Lemma fold_left_map_eq {A B C : Type} (f : A -> B -> A) (g : C -> B) (l : list C) (s : A) :
  fold_left f (map g l) s = fold_left (fun a c => f a (g c)) l s.
Proof. revert s. induction l as [|c l IH]; intros s; simpl; [done|]. apply IH. Qed.

Lemma fold_left_flat_map {A B C : Type} (f : A -> B -> A) (g : C -> list B) (l : list C) (s : A) :
  fold_left f (flat_map g l) s = fold_left (fun a c => fold_left f (g c) a) l s.
Proof.
  revert s. induction l as [|c l IH]; intros s; simpl; [done|].
  rewrite fold_left_app. apply IH.
Qed.

Lemma loop_fold {S : Type} (n : nat) (i : Z) (body : Z -> S -> S) (s : S) :
  loop n i body s = fold_left (fun s k => body k s) (map (fun k => i + Z.of_nat k) (seq 0 n)) s.
Proof.
  revert i s. induction n as [|n IH]; intros i s; simpl; [done|].
  rewrite IH. replace (i + Z.of_nat 0) with i by lia. f_equal.
  rewrite <- seq_shift, map_map. apply map_ext. intros k. lia.
Qed.

Lemma for_lt_fold {S : Type} (lo hi : Z) (body : Z -> S -> S) (s : S) :
  for_lt lo hi body s = fold_left (fun s k => body k s) (zrange lo hi) s.
Proof. unfold for_lt, zrange. apply loop_fold. Qed.

Lemma in_zrange (lo hi k : Z) : In k (zrange lo hi) <-> lo <= k < hi.
Proof.
  unfold zrange. rewrite in_map_iff. split.
  - intros [j [<- Hj]]. apply in_seq in Hj. lia.
  - intros Hk. exists (Z.to_nat (k - lo)). split; [lia|]. apply in_seq. lia.
Qed.

(** ** Coordinates and the column-major index *)

Lemma fold_coords_cons {A : Type} (f : A -> list Z -> A) (d : Z) (ds : list Z) (s : A) :
  fold_left f (coords (d :: ds)) s =
  fold_left (fun s rest => fold_left (fun s c => f s (c :: rest)) (zrange 0 d) s) (coords ds) s.
Proof.
  simpl. rewrite fold_left_flat_map. apply fold_left_ext_eq. intros a rest.
  apply fold_left_map_eq.
Qed.

Lemma fold_coords_nil {A : Type} (f : A -> list Z -> A) (s : A) :
  fold_left f (coords []) s = f s [].
Proof. reflexivity. Qed.

Lemma linear_from_scale (acc : Z) (dims coord : list Z) :
  linear_from acc dims coord = acc * linear_from 1 dims coord.
Proof.
  revert acc coord. induction dims as [|d ds IH]; intros acc [|c cs]; simpl; try lia.
  rewrite (IH (acc * d)), (IH (1 * d)). lia.
Qed.

Lemma linear_cons (d : Z) (ds : list Z) (c : Z) (cs : list Z) :
  linear (d :: ds) (c :: cs) = c + d * linear ds cs.
Proof. unfold linear. simpl. rewrite linear_from_scale. lia. Qed.

Lemma in_coords (dims c : list Z) :
  In c (coords dims) <-> Forall2 (fun ci di => 0 <= ci < di) c dims.
Proof.
  revert c. induction dims as [|d ds IH]; intros c; simpl.
  - split.
    + intros [<- | []]. constructor.
    + intros H. inversion H. auto.
  - rewrite in_flat_map. split.
    + intros [rest [Hrest Hc]]. apply in_map_iff in Hc as [ci [<- Hci]].
      apply in_zrange in Hci. constructor; [lia|]. by apply IH.
    + intros H. inversion H as [|ci di cs ds' Hci Hcs]; subst.
      exists cs. split; [by apply IH|]. apply in_map_iff. exists ci.
      split; [done|]. apply in_zrange. lia.
Qed.

Lemma linear_bounds (dims c : list Z) :
  Forall2 (fun ci di => 0 <= ci < di) c dims ->
  0 <= linear dims c < foldr Z.mul 1 dims.
Proof.
  induction 1 as [|ci di cs ds Hci Hcs IH]; [unfold linear; simpl; lia|].
  rewrite linear_cons. simpl. nia.
Qed.

Lemma linear_inj (dims c c' : list Z) :
  Forall2 (fun ci di => 0 <= ci < di) c dims ->
  Forall2 (fun ci di => 0 <= ci < di) c' dims ->
  linear dims c = linear dims c' -> c = c'.
Proof.
  intros H. revert c'. induction H as [|ci di cs ds Hci Hcs IH]; intros c' H'.
  - inversion H'. done.
  - inversion H' as [|ci' di' cs' ds' Hci' Hcs']; subst.
    rewrite !linear_cons. intros Heq.
    pose proof (linear_bounds _ _ Hcs). pose proof (linear_bounds _ _ Hcs').
    assert (linear ds cs = linear ds cs') as HL.
    { destruct (Z.lt_trichotomy (linear ds cs) (linear ds cs')) as [Hlt|[Heq'|Hgt]];
        [nia|done|nia]. }
    rewrite HL in Heq. f_equal; [lia|]. by apply IH.
Qed.

(** ** The kernel refines the spec's correlation *)

Section CorrelationProofs.

Context {R : Type} (zero : R) (add mul : R -> R -> R).

Lemma window_sum_correlate_at (image filt : list R) (xi yi ti xf yf tf xs ys ts x y t : Z) :
  window_sum_exact zero add mul image xi yi filt xf yf tf xs ys ts x y t =
  correlate_at zero add mul image [xi; yi; ti] filt [xf; yf; tf] [xs; ys; ts] [x; y; t].
Proof.
  unfold window_sum_exact, correlate_at.
  rewrite !fold_coords_cons, fold_coords_nil. cbn beta.
  rewrite for_lt_fold. apply fold_left_ext_eq. intros s ft.
  rewrite for_lt_fold. apply fold_left_ext_eq. intros s' fy.
  rewrite for_lt_fold. apply fold_left_ext_eq. intros s'' fx.
  cbn [zip_with]. unfold linear. cbn [linear_from].
  f_equal. f_equal; f_equal; lia.
Qed.

Lemma valid_filter_fold (image filt result : list R) (xi yi ti xf yf tf xs ys ts : Z) :
  let out := [res_dim xi xf xs; res_dim yi yf ys; res_dim ti tf ts] in
  valid_filter_exact zero add mul image xi yi ti filt xf yf tf xs ys ts result =
  fold_left (fun r c => wr r (linear out c)
                          (correlate_at zero add mul image [xi; yi; ti] filt [xf; yf; tf]
                             [xs; ys; ts] c))
    (coords out) result.
Proof.
  intros out. unfold valid_filter_exact, out.
  rewrite !fold_coords_cons, fold_coords_nil. cbn beta.
  rewrite for_lt_fold. apply fold_left_ext_eq. intros r t.
  rewrite for_lt_fold. apply fold_left_ext_eq. intros r' y.
  rewrite for_lt_fold. apply fold_left_ext_eq. intros r'' x.
  rewrite (window_sum_correlate_at _ _ _ _ ti).
  unfold linear. cbn [linear_from]. f_equal. lia.
Qed.

Lemma fold_wr_lookup {A : Type} (l : list A) (idx : A -> Z) (val : A -> R)
    (r : list R) (p : nat) (v : R) :
  (forall a, In a l -> 0 <= idx a) ->
  (forall a, In a l -> Z.to_nat (idx a) = p -> val a = v) ->
  (p < length r)%nat ->
  ((exists a, In a l /\ Z.to_nat (idx a) = p) \/ r !! p = Some v) ->
  fold_left (fun r a => wr r (idx a) (val a)) l r !! p = Some v.
Proof.
  revert r. induction l as [|a l IH]; intros r Hnn Hval Hp Hex; simpl.
  - destruct Hex as [[a [[] _]] | Hr]. done.
  - assert (Hwr : wr r (idx a) (val a) = <[Z.to_nat (idx a) := val a]> r).
    { unfold wr. destruct (idx a <? 0) eqn:E; [|done].
      pose proof (Hnn a (or_introl eq_refl)). lia. }
    apply IH.
    + intros b Hb. apply Hnn. by right.
    + intros b Hb. apply Hval. by right.
    + rewrite Hwr, length_insert. done.
    + rewrite Hwr. destruct (decide (Z.to_nat (idx a) = p)) as [<-|Hne].
      * right. rewrite list_lookup_insert_eq; [|lia]. f_equal. apply Hval; [by left|done].
      * destruct Hex as [[b [[<-|Hb] Hbp]] | Hr]; [done| left; by exists b |].
        right. by rewrite list_lookup_insert_ne.
Qed.

(** Every output coordinate of [valid_filter_exact] holds the spec's sum. *)
Lemma valid_filter_at (image filt result : list R) (xi yi ti xf yf tf xs ys ts : Z) :
  let out := [res_dim xi xf xs; res_dim yi yf ys; res_dim ti tf ts] in
  (Z.to_nat (foldr Z.mul 1%Z out) <= length result)%nat ->
  forall c, In c (coords out) ->
  valid_filter_exact zero add mul image xi yi ti filt xf yf tf xs ys ts result
    !! Z.to_nat (linear out c) =
  Some (correlate_at zero add mul image [xi; yi; ti] filt [xf; yf; tf] [xs; ys; ts] c).
Proof.
  intros out Hlen c Hc. rewrite valid_filter_fold. fold out.
  pose proof Hc as Hc2. apply in_coords in Hc2.
  pose proof (linear_bounds _ _ Hc2).
  apply fold_wr_lookup.
  - intros a Ha. apply in_coords, linear_bounds in Ha. lia.
  - intros a Ha Heq. apply in_coords in Ha as Ha2.
    pose proof (linear_bounds _ _ Ha2).
    assert (a = c) as -> by (apply (linear_inj out); [done|done|lia]). done.
  - lia.
  - left. by exists c.
Qed.

End CorrelationProofs.

(** ** The [int] checks of the kernel *)

Lemma ck_some (z z' : Z) : ck z = Some z' -> z' = z.
Proof. unfold ck. destruct (_ && _); congruence. Qed.

Lemma ck_in (z : Z) : - 2 ^ 31 <= z < 2 ^ 31 -> ck z = Some z.
Proof.
  intros Hz. unfold ck.
  rewrite (proj2 (Z.leb_le _ _)), (proj2 (Z.ltb_lt _ _)) by lia. done.
Qed.

Lemma mul_add_some (x s f v : Z) : mul_add x s f = Some v -> v = x * s + f.
Proof.
  unfold mul_add. destruct (ck (x * s)) as [p|] eqn:E; cbn [mbind option_bind]; [|discriminate].
  intros Hv. apply ck_some in E, Hv. lia.
Qed.

Lemma mul_add_in (x s f : Z) :
  - 2 ^ 31 <= x * s < 2 ^ 31 -> - 2 ^ 31 <= x * s + f < 2 ^ 31 ->
  mul_add x s f = Some (x * s + f).
Proof.
  intros H1 H2. unfold mul_add. rewrite ck_in by lia. cbn [mbind option_bind].
  by rewrite ck_in.
Qed.

Lemma index3_some (a b c d1 d2 v : Z) : index3 a b c d1 d2 = Some v -> v = a + b * d1 + c * d1 * d2.
Proof.
  unfold index3.
  destruct (ck (b * d1)) as [p|] eqn:E1; cbn [mbind option_bind]; [|discriminate].
  destruct (ck (a + p)) as [q|] eqn:E2; cbn [mbind option_bind]; [|discriminate].
  destruct (ck (c * d1)) as [r|] eqn:E3; cbn [mbind option_bind]; [|discriminate].
  destruct (ck (r * d2)) as [u|] eqn:E4; cbn [mbind option_bind]; [|discriminate].
  intros E5. apply ck_some in E1, E2, E3, E4, E5. subst. lia.
Qed.

(** The three column-major indices of the kernel stay below the element
    count [d1 * d2 * d3], and so do all their partial sums. *)
Lemma index3_in (a b c d1 d2 d3 : Z) :
  0 <= a < d1 -> 0 <= b < d2 -> 0 <= c < d3 -> d1 * d2 * d3 < 2 ^ 31 ->
  index3 a b c d1 d2 = Some (a + b * d1 + c * d1 * d2).
Proof.
  intros Ha Hb Hc Hd.
  assert (0 <= b * d1 <= (d2 - 1) * d1) by nia.
  assert (0 <= c * d1 <= c * d1 * d2) by nia.
  assert (0 <= c * d1 * d2 <= (d3 - 1) * (d1 * d2)) by nia.
  assert (d1 * d2 * d3 = (d3 - 1) * (d1 * d2) + d1 * d2) by ring.
  unfold index3.
  rewrite (ck_in (b * d1)) by nia. cbn [mbind option_bind].
  rewrite (ck_in (a + b * d1)) by nia. cbn [mbind option_bind].
  rewrite (ck_in (c * d1)) by nia. cbn [mbind option_bind].
  rewrite (ck_in (c * d1 * d2)) by nia. cbn [mbind option_bind].
  rewrite ck_in by nia. done.
Qed.

Lemma res_dim_c_some (i f s r : Z) : res_dim_c i f s = Some r -> r = res_dim i f s.
Proof.
  unfold res_dim_c, res_dim.
  destruct (ck (i - f)) as [d|] eqn:E1; cbn [mbind option_bind]; [|discriminate].
  destruct (s =? 0); [discriminate|].
  destruct (ck (Z.quot d s)) as [q|] eqn:E2; cbn [mbind option_bind]; [|discriminate].
  intros E3. apply ck_some in E1, E2, E3. subst. reflexivity.
Qed.

(** With [1 <= f <= i < 2^31] and a positive step, the output extent is
    defined. *)
Lemma res_dim_c_in (i f s : Z) :
  1 <= f <= i -> i < 2 ^ 31 -> 1 <= s -> res_dim_c i f s = Some (res_dim i f s).
Proof.
  intros Hf Hi Hs. unfold res_dim_c, res_dim.
  rewrite ck_in by lia. cbn [mbind option_bind].
  destruct (Z.eqb_spec s 0) as [E|_]; [lia|].
  assert (0 <= Z.quot (i - f) s <= i - f).
  { rewrite Z.quot_div_nonneg by lia. split; [apply Z.div_pos; lia|].
    apply Z.div_le_upper_bound; nia. }
  rewrite ck_in by lia. cbn [mbind option_bind]. rewrite ck_in by lia. done.
Qed.

(** ** Loops that may reach undefined behaviour *)

Lemma loop_none {S : Type} (n : nat) (i : Z) (b : Z -> S -> option S) :
  loop n i (fun k o => o ≫= b k) None = None.
Proof. revert i. induction n as [|n IH]; intros i; simpl; [done|]. apply IH. Qed.

(** A defined loop ran every body to completion. *)
Lemma for_lt_opt_refine {S : Type} (lo hi : Z) (b : Z -> S -> option S) (b' : Z -> S -> S)
    (s r : S) :
  (forall k s s', b k s = Some s' -> s' = b' k s) ->
  for_lt_opt lo hi b s = Some r -> r = for_lt lo hi b' s.
Proof.
  intros Hb. unfold for_lt_opt, for_lt. generalize (Z.to_nat (hi - lo)) as n.
  intros n. revert lo s. induction n as [|n IH]; intros i s; simpl; [congruence|].
  destruct (b i s) as [s'|] eqn:E; [|rewrite loop_none; discriminate].
  apply Hb in E as ->. apply IH.
Qed.

Lemma for_lt_opt_defined {S : Type} (lo hi : Z) (b : Z -> S -> option S) (b' : Z -> S -> S)
    (s : S) :
  (forall k s, lo <= k < hi -> b k s = Some (b' k s)) ->
  for_lt_opt lo hi b s = Some (for_lt lo hi b' s).
Proof.
  intros Hb. unfold for_lt_opt, for_lt.
  assert (H : forall n i s, lo <= i -> i + Z.of_nat n <= hi ->
            loop n i (fun k o => o ≫= b k) (Some s) = Some (loop n i b' s)).
  { induction n as [|n IH]; intros i s0 Hi Hn; simpl; [done|].
    rewrite Hb by lia. apply IH; lia. }
  destruct (Z.le_gt_cases lo hi).
  - apply H; lia.
  - replace (Z.to_nat (hi - lo)) with 0%nat by lia. done.
Qed.

(** Whether a loop reaches undefined behaviour depends only on whether its
    bodies do, not on the states they are run from. *)
Lemma for_lt_opt_none_iff {S1 S2 : Type} (lo hi : Z)
    (b1 : Z -> S1 -> option S1) (b2 : Z -> S2 -> option S2) (s1 : S1) (s2 : S2) :
  (forall k s1 s2, lo <= k < hi -> b1 k s1 = None <-> b2 k s2 = None) ->
  for_lt_opt lo hi b1 s1 = None <-> for_lt_opt lo hi b2 s2 = None.
Proof.
  intros Hb. unfold for_lt_opt, for_lt.
  assert (H : forall n i s1 s2, lo <= i -> i + Z.of_nat n <= hi ->
            loop n i (fun k o => o ≫= b1 k) (Some s1) = None <->
            loop n i (fun k o => o ≫= b2 k) (Some s2) = None).
  { induction n as [|n IH]; intros i t1 t2 Hi Hn; simpl; [split; discriminate|].
    specialize (Hb i t1 t2 ltac:(lia)).
    destruct (b1 i t1) as [u1|], (b2 i t2) as [u2|]; cbn [mbind option_bind].
    - apply IH; lia.
    - destruct Hb as [_ Hb]. discriminate (Hb eq_refl).
    - destruct Hb as [Hb _]. discriminate (Hb eq_refl).
    - rewrite !loop_none. done. }
  destruct (Z.le_gt_cases lo hi).
  - apply H; lia.
  - replace (Z.to_nat (hi - lo)) with 0%nat by lia. split; discriminate.
Qed.

(** One iteration that reaches undefined behaviour, whatever its state,
    makes the loop undefined. *)
Lemma for_lt_opt_none_at {S : Type} (lo hi k : Z) (b : Z -> S -> option S) (s : S) :
  lo <= k < hi -> (forall s, b k s = None) -> for_lt_opt lo hi b s = None.
Proof.
  intros Hk Hb. unfold for_lt_opt, for_lt.
  assert (H : forall n i o, i <= k < i + Z.of_nat n ->
            loop n i (fun k o => o ≫= b k) o = None).
  { induction n as [|n IH]; intros i o Hi; simpl; [lia|].
    destruct (Z.eq_dec i k) as [->|Hne].
    - destruct o as [s'|]; cbn [mbind option_bind]; [rewrite Hb|]; apply loop_none.
    - apply IH. lia. }
  apply H. lia.
Qed.

Section CheckedKernel.

Context {R : Type} (zero : R) (add mul : R -> R -> R).

Lemma window_sum_refine (image filt : list R) (xi yi xf yf tf xs ys ts x y t : Z) (v : R) :
  window_sum zero add mul image xi yi filt xf yf tf xs ys ts x y t = Some v ->
  v = window_sum_exact zero add mul image xi yi filt xf yf tf xs ys ts x y t.
Proof.
  unfold window_sum, window_sum_exact.
  apply for_lt_opt_refine. intros ft s s'.
  apply for_lt_opt_refine. intros fy s1 s1'.
  apply for_lt_opt_refine. intros fx s2 s2'.
  destruct (mul_add x xs fx) as [a|] eqn:Ea; cbn [mbind option_bind]; [|discriminate].
  destruct (mul_add y ys fy) as [b|] eqn:Eb; cbn [mbind option_bind]; [|discriminate].
  destruct (mul_add t ts ft) as [c|] eqn:Ec; cbn [mbind option_bind]; [|discriminate].
  destruct (index3 a b c xi yi) as [i|] eqn:Ei; cbn [mbind option_bind]; [|discriminate].
  destruct (index3 fx fy ft xf yf) as [f|] eqn:Ef; cbn [mbind option_bind]; [|discriminate].
  intros [= <-]. apply mul_add_some in Ea, Eb, Ec. apply index3_some in Ei, Ef. subst.
  reflexivity.
Qed.

(** A defined [valid_filter] computes what the exact loops compute. *)
Lemma valid_filter_refine (image filt result : list R) (xi yi ti xf yf tf xs ys ts : Z)
    (r : list R) :
  valid_filter zero add mul image xi yi ti filt xf yf tf xs ys ts result = Some r ->
  r = valid_filter_exact zero add mul image xi yi ti filt xf yf tf xs ys ts result.
Proof.
  unfold valid_filter, valid_filter_exact.
  destruct (res_dim_c xi xf xs) as [xr|] eqn:Ex; cbn [mbind option_bind]; [|discriminate].
  destruct (res_dim_c yi yf ys) as [yr|] eqn:Ey; cbn [mbind option_bind]; [|discriminate].
  destruct (res_dim_c ti tf ts) as [tr|] eqn:Et; cbn [mbind option_bind]; [|discriminate].
  apply res_dim_c_some in Ex, Ey, Et. subst.
  apply for_lt_opt_refine. intros t s s'.
  apply for_lt_opt_refine. intros y s1 s1'.
  apply for_lt_opt_refine. intros x s2 s2'.
  destruct (window_sum _ _ _ _ _ _ _ _ _ _ _ _ _ _ _ _) as [v|] eqn:Ew;
    cbn [mbind option_bind]; [|discriminate].
  destruct (index3 x y t _ _) as [i|] eqn:Ei; cbn [mbind option_bind]; [|discriminate].
  intros [= <-]. apply window_sum_refine in Ew. apply index3_some in Ei. subst.
  reflexivity.
Qed.

Lemma window_sum_none_iff (image image' filt filt' : list R)
    (xi yi xf yf tf xs ys ts x y t : Z) :
  window_sum zero add mul image xi yi filt xf yf tf xs ys ts x y t = None <->
  window_sum zero add mul image' xi yi filt' xf yf tf xs ys ts x y t = None.
Proof.
  unfold window_sum.
  apply for_lt_opt_none_iff. intros ft s1 s2 _.
  apply for_lt_opt_none_iff. intros fy s3 s4 _.
  apply for_lt_opt_none_iff. intros fx s5 s6 _.
  destruct (mul_add x xs fx); cbn [mbind option_bind]; [|done].
  destruct (mul_add y ys fy); cbn [mbind option_bind]; [|done].
  destruct (mul_add t ts ft); cbn [mbind option_bind]; [|done].
  destruct (index3 _ _ _ xi yi); cbn [mbind option_bind]; [|done].
  destruct (index3 fx fy ft xf yf); cbn [mbind option_bind]; [|done].
  split; discriminate.
Qed.

(** Whether [valid_filter] is defined depends on the extents and steps
    only, not on the data of the buffers. *)
Lemma valid_filter_none_iff (image image' filt filt' result result' : list R)
    (xi yi ti xf yf tf xs ys ts : Z) :
  valid_filter zero add mul image xi yi ti filt xf yf tf xs ys ts result = None <->
  valid_filter zero add mul image' xi yi ti filt' xf yf tf xs ys ts result' = None.
Proof.
  unfold valid_filter.
  destruct (res_dim_c xi xf xs) as [xr|]; cbn [mbind option_bind]; [|done].
  destruct (res_dim_c yi yf ys) as [yr|]; cbn [mbind option_bind]; [|done].
  destruct (res_dim_c ti tf ts) as [tr|]; cbn [mbind option_bind]; [|done].
  apply for_lt_opt_none_iff. intros t s1 s2 _.
  apply for_lt_opt_none_iff. intros y s3 s4 _.
  apply for_lt_opt_none_iff. intros x s5 s6 _.
  pose proof (window_sum_none_iff image image' filt filt' xi yi xf yf tf xs ys ts x y t) as H.
  destruct (window_sum zero add mul image xi yi filt xf yf tf xs ys ts x y t),
    (window_sum zero add mul image' xi yi filt' xf yf tf xs ys ts x y t);
    cbn [mbind option_bind].
  - destruct (index3 x y t xr yr); cbn [mbind option_bind]; [split; discriminate|done].
  - destruct H as [_ H]. discriminate (H eq_refl).
  - destruct H as [H _]. discriminate (H eq_refl).
  - done.
Qed.

Lemma window_sum_defined (image filt : list R) (xi yi ti xf yf tf xs ys ts x y t : Z) :
  (forall fx, 0 <= fx < xf -> 0 <= x * xs + fx < xi) ->
  (forall fy, 0 <= fy < yf -> 0 <= y * ys + fy < yi) ->
  (forall ft, 0 <= ft < tf -> 0 <= t * ts + ft < ti) ->
  xi * yi * ti < 2 ^ 31 -> xf * yf * tf < 2 ^ 31 ->
  window_sum zero add mul image xi yi filt xf yf tf xs ys ts x y t =
  Some (window_sum_exact zero add mul image xi yi filt xf yf tf xs ys ts x y t).
Proof.
  intros HX HY HT Hi Hf. unfold window_sum, window_sum_exact.
  apply for_lt_opt_defined. intros ft s Hft.
  apply for_lt_opt_defined. intros fy s1 Hfy.
  apply for_lt_opt_defined. intros fx s2 Hfx.
  specialize (HX fx Hfx). specialize (HY fy Hfy). specialize (HT ft Hft).
  assert (1 <= xi /\ 1 <= yi /\ 1 <= ti) as (? & ? & ?) by lia.
  assert (xi <= xi * yi /\ yi <= xi * yi) as [? ?] by nia.
  assert (xi * yi <= xi * yi * ti /\ ti <= xi * yi * ti) as [? ?] by nia.
  assert (xf <= xf * yf /\ yf <= xf * yf) as [? ?] by nia.
  assert (xf * yf <= xf * yf * tf /\ tf <= xf * yf * tf) as [? ?] by nia.
  rewrite (mul_add_in x xs fx) by lia. cbn [mbind option_bind].
  rewrite (mul_add_in y ys fy) by lia. cbn [mbind option_bind].
  rewrite (mul_add_in t ts ft) by lia. cbn [mbind option_bind].
  rewrite (index3_in _ _ _ xi yi ti) by lia. cbn [mbind option_bind].
  rewrite (index3_in _ _ _ xf yf tf) by lia. cbn [mbind option_bind].
  reflexivity.
Qed.

(** [valid_filter] is defined, and computes what the exact loops compute,
    when the output extents are defined, every image position it visits is
    inside the image, and the image, the filter and the output each have
    fewer than [2^31] elements. *)
Lemma valid_filter_defined (image filt result : list R) (xi yi ti xf yf tf xs ys ts : Z) :
  res_dim_c xi xf xs = Some (res_dim xi xf xs) ->
  res_dim_c yi yf ys = Some (res_dim yi yf ys) ->
  res_dim_c ti tf ts = Some (res_dim ti tf ts) ->
  (forall x fx, 0 <= x < res_dim xi xf xs -> 0 <= fx < xf -> 0 <= x * xs + fx < xi) ->
  (forall y fy, 0 <= y < res_dim yi yf ys -> 0 <= fy < yf -> 0 <= y * ys + fy < yi) ->
  (forall t ft, 0 <= t < res_dim ti tf ts -> 0 <= ft < tf -> 0 <= t * ts + ft < ti) ->
  xi * yi * ti < 2 ^ 31 -> xf * yf * tf < 2 ^ 31 ->
  res_dim xi xf xs * res_dim yi yf ys * res_dim ti tf ts < 2 ^ 31 ->
  valid_filter zero add mul image xi yi ti filt xf yf tf xs ys ts result =
  Some (valid_filter_exact zero add mul image xi yi ti filt xf yf tf xs ys ts result).
Proof.
  intros Hx Hy Ht HX HY HT Hi Hf Hr.
  unfold valid_filter, valid_filter_exact. rewrite Hx, Hy, Ht. cbn [mbind option_bind].
  apply for_lt_opt_defined. intros t s Ht'.
  apply for_lt_opt_defined. intros y s1 Hy'.
  apply for_lt_opt_defined. intros x s2 Hx'.
  rewrite (window_sum_defined _ _ _ _ ti) by auto. cbn [mbind option_bind].
  rewrite (index3_in _ _ _ _ _ (res_dim ti tf ts)) by lia. reflexivity.
Qed.

End CheckedKernel.

(** ** Output shapes *)

Lemma res_dim_floor (i k s : Z) :
  k <= i -> 1 <= s -> res_dim i k s = (i - k) / s + 1.
Proof. intros Hk Hs. unfold res_dim. rewrite Z.quot_div_nonneg; lia. Qed.

Lemma calc_dim_floor (i k s : Z) :
  1 <= k <= i -> i < 2 ^ 64 -> 1 <= s < 2 ^ 31 ->
  ValidCorrDn3.calc_dim i k s = Some ((i - k) / s + 1).
Proof.
  intros Hk Hi Hs. unfold ValidCorrDn3.calc_dim, u64.
  rewrite (Z.mod_small s) by lia.
  destruct (Z.eqb_spec s 0) as [E|_]; [lia|].
  rewrite (Z.mod_small (i - k)) by lia. f_equal.
  assert (0 <= (i - k) / s <= (i - k) / 1).
  { split; [apply Z.div_pos; lia | apply Z.div_le_compat_l; lia]. }
  rewrite Z.div_1_r in H. apply Z.mod_small. lia.
Qed.

Section DefinedWithin.

Context {R : Type} (zero : R) (add mul : R -> R -> R).

(** Under the validation preconditions ([1 <= fdim <= idim], [step >= 1]),
    [valid_filter] is defined as soon as the image has fewer than [2^31]
    elements: every [int] it computes is then smaller. *)
Lemma valid_filter_defined_within (image filt result : list R)
    (xi yi ti xf yf tf xs ys ts : Z) :
  1 <= xf <= xi -> 1 <= yf <= yi -> 1 <= tf <= ti ->
  1 <= xs -> 1 <= ys -> 1 <= ts ->
  xi * yi * ti < 2 ^ 31 ->
  valid_filter zero add mul image xi yi ti filt xf yf tf xs ys ts result =
  Some (valid_filter_exact zero add mul image xi yi ti filt xf yf tf xs ys ts result).
Proof.
  intros Hx Hy Ht Hxs Hys Hts Hi.
  assert (xi <= xi * yi /\ yi <= xi * yi) as [? ?] by nia.
  assert (xi * yi <= xi * yi * ti /\ ti <= xi * yi * ti) as [? ?] by nia.
  assert (Hq : forall i f s, 1 <= f <= i -> 1 <= s ->
            1 <= res_dim i f s <= i - f + 1 /\
            forall x fx, 0 <= x < res_dim i f s -> 0 <= fx < f -> 0 <= x * s + fx < i).
  { intros i f s Hf Hs. rewrite res_dim_floor by lia.
    assert (0 <= (i - f) / s <= i - f).
    { split; [apply Z.div_pos; lia|]. apply Z.div_le_upper_bound; nia. }
    split; [lia|]. intros x fx Hx' Hfx.
    pose proof (Z.mul_div_le (i - f) s ltac:(lia)). nia. }
  destruct (Hq xi xf xs) as [Hxr HX]; [lia|lia|].
  destruct (Hq yi yf ys) as [Hyr HY]; [lia|lia|].
  destruct (Hq ti tf ts) as [Htr HT]; [lia|lia|].
  apply valid_filter_defined; auto.
  - apply res_dim_c_in; lia.
  - apply res_dim_c_in; lia.
  - apply res_dim_c_in; lia.
  - assert (xf * yf <= xi * yi) by nia. nia.
  - assert (res_dim xi xf xs * res_dim yi yf ys <= xi * yi) by nia. nia.
Qed.

End DefinedWithin.

(** ** Claims about the correlation *)

(** On a 65536x65536 input with a 1x1 kernel and unit steps, the [int]
    index [img_y * x_idim] at output [(0, 32768, 0)] is
    [32768 * 65536 = 2^31], a signed overflow, whatever the buffers hold. *)
Lemma valid_filter_overflow_any (image result : list float) :
  valid_filter_d image 65536 65536 1 [1%float] 1 1 1 1 1 1 result = None.
Proof.
  unfold valid_filter_d, valid_filter.
  change (res_dim_c 65536 1 1) with (Some 65536). change (res_dim_c 1 1 1) with (Some 1).
  cbn [mbind option_bind].
  apply (for_lt_opt_none_at _ _ 0); [lia|]. intros s.
  apply (for_lt_opt_none_at _ _ 32768); [lia|]. intros s'.
  apply (for_lt_opt_none_at _ _ 0); [lia|]. intros s''.
  vm_compute. reflexivity.
Qed.

(** C1 (counterexample): the 65536x65536 all-ones input (fewer elements
    than MATLAB's maximum, [2^32]) with the 1x1 kernel [1] and unit steps,
    into the zero-filled 65536x65536 output: [valid_filter] overflows an
    [int] index, and the call is undefined. *)
Lemma valid_filter_int_overflow :
  valid_filter_d (replicate (Z.to_nat (65536 * 65536)) 1%float) 65536 65536 1 [1%float]
    1 1 1 1 1 1 (replicate (Z.to_nat (65536 * 65536)) 0%float) = None.
Proof. apply valid_filter_overflow_any. Qed.

(** C1 (as the code has it): on a 3-D input (no pass-through axis) with
    fewer than [2^31] elements, with [1 <= kernel_dims[i] <= in_dims[i]] and
    [stride[i] >= 1], [valid_filter] is defined and writes at the
    column-major index of every output coordinate the plain left-to-right
    double-precision sum, over the kernel coordinates (first axis
    innermost), of [in[coord * stride + offset] * kernel[offset]], the
    kernel not reversed. *)
Theorem valid_filter_correlates (image filt result : list float)
    (xi yi ti xf yf tf xs ys ts : Z) :
  1 <= xf <= xi -> 1 <= yf <= yi -> 1 <= tf <= ti ->
  1 <= xs -> 1 <= ys -> 1 <= ts ->
  xi * yi * ti < 2 ^ 31 ->
  (Z.to_nat (foldr Z.mul 1%Z (out_shape [xi; yi; ti] [xf; yf; tf] [xs; ys; ts]))
     <= length result)%nat ->
  exists r,
    valid_filter_d image xi yi ti filt xf yf tf xs ys ts result = Some r /\
    forall c, In c (coords (out_shape [xi; yi; ti] [xf; yf; tf] [xs; ys; ts])) ->
    r !! Z.to_nat (linear (out_shape [xi; yi; ti] [xf; yf; tf] [xs; ys; ts]) c) =
    Some (correlate_at 0%float PrimFloat.add PrimFloat.mul
            image [xi; yi; ti] filt [xf; yf; tf] [xs; ys; ts] c).
Proof.
  intros Hx Hy Ht Hxs Hys Hts Hi.
  replace (out_shape [xi; yi; ti] [xf; yf; tf] [xs; ys; ts])
    with [res_dim xi xf xs; res_dim yi yf ys; res_dim ti tf ts]
    by (unfold out_shape; simpl; rewrite !res_dim_floor by lia; done).
  intros Hlen. eexists. split.
  - unfold valid_filter_d. apply valid_filter_defined_within; lia.
  - by apply valid_filter_at.
Qed.

Lemma valid_filter_correlates_witness :
  exists r,
    valid_filter_d [1; 2; 3; 4; 5; 6; 7; 8; 9]%float 3 3 1 [1; 1; 1; 1]%float 2 2 1 1 1 1
      [0; 0; 0; 0]%float = Some r /\
    forall c, In c (coords (out_shape [3; 3; 1] [2; 2; 1] [1; 1; 1])) ->
    r !! Z.to_nat (linear (out_shape [3; 3; 1] [2; 2; 1] [1; 1; 1]) c) =
    Some (correlate_at 0%float PrimFloat.add PrimFloat.mul
            [1; 2; 3; 4; 5; 6; 7; 8; 9]%float [3; 3; 1] [1; 1; 1; 1]%float [2; 2; 1]
            [1; 1; 1] c).
Proof.
  apply (valid_filter_correlates _ _ _ 3 3 1 2 2 1 1 1 1); try lia.
  vm_compute. lia.
Defined.

(** C2: with [1 <= kernel_dims[i] <= in_dims[i]] (extents of [mwSize]) and
    [1 <= stride[i]] (an [int]), [calculateOutputDimensions] resolves
    [floor((in_dims[i] - kernel_dims[i]) / stride[i]) + 1] on the three
    convolved axes and copies the pass-through extent [in_dims[3]]; the
    extents [valid_filter] iterates over are the same. *)
Theorem calculateOutputDimensions_shape (i0 i1 i2 i3 k0 k1 k2 k3 s0 s1 s2 : Z) :
  1 <= k0 <= i0 -> 1 <= k1 <= i1 -> 1 <= k2 <= i2 ->
  i0 < 2 ^ 64 -> i1 < 2 ^ 64 -> i2 < 2 ^ 64 ->
  1 <= s0 < 2 ^ 31 -> 1 <= s1 < 2 ^ 31 -> 1 <= s2 < 2 ^ 31 ->
  ValidCorrDn3.calculateOutputDimensions [i0; i1; i2; i3] [k0; k1; k2; k3] [s0; s1; s2] =
    Some [(i0 - k0) / s0 + 1; (i1 - k1) / s1 + 1; (i2 - k2) / s2 + 1; i3] /\
  [res_dim i0 k0 s0; res_dim i1 k1 s1; res_dim i2 k2 s2] =
    out_shape [i0; i1; i2] [k0; k1; k2] [s0; s1; s2].
Proof.
  intros. split.
  - unfold ValidCorrDn3.calculateOutputDimensions. cbn -[ValidCorrDn3.calc_dim].
    rewrite !calc_dim_floor by lia. done.
  - unfold out_shape. simpl. rewrite !res_dim_floor by lia. done.
Qed.

Lemma calculateOutputDimensions_shape_witness :
  ValidCorrDn3.calculateOutputDimensions [7; 5; 4; 3] [2; 3; 4; 9] [2; 1; 3] =
    Some [(7 - 2) / 2 + 1; (5 - 3) / 1 + 1; (4 - 4) / 3 + 1; 3] /\
  [res_dim 7 2 2; res_dim 5 3 1; res_dim 4 4 3] = out_shape [7; 5; 4] [2; 3; 4] [2; 1; 3].
Proof. apply calculateOutputDimensions_shape; lia. Defined.

(** C8: for fixed extents [1 <= k <= i], the output extent computed by
    [calculateOutputDimensions] at stride [s] is [floor((i - k) / s) + 1],
    and it does not increase when the stride increases. *)
Theorem calc_dim_antitone (i k s1 s2 : Z) :
  1 <= k <= i -> i < 2 ^ 64 -> 1 <= s1 <= s2 -> s2 < 2 ^ 31 ->
  ValidCorrDn3.calc_dim i k s1 = Some ((i - k) / s1 + 1) /\
  ValidCorrDn3.calc_dim i k s2 = Some ((i - k) / s2 + 1) /\
  (i - k) / s2 + 1 <= (i - k) / s1 + 1.
Proof.
  intros Hk Hi Hs Hs2. split; [|split].
  - apply calc_dim_floor; lia.
  - apply calc_dim_floor; lia.
  - assert ((i - k) / s2 <= (i - k) / s1) by (apply Z.div_le_compat_l; lia). lia.
Qed.

Lemma calc_dim_antitone_witness :
  ValidCorrDn3.calc_dim 10 3 2 = Some ((10 - 3) / 2 + 1) /\
  ValidCorrDn3.calc_dim 10 3 3 = Some ((10 - 3) / 3 + 1) /\
  (10 - 3) / 3 + 1 <= (10 - 3) / 2 + 1.
Proof. apply calc_dim_antitone; lia. Defined.

(** ** A 1x1x1 kernel *)

Section UnitKernel.

Context {R : Type} (zero : R) (add mul : R -> R -> R) (one : R).

Lemma wr_length (r : list R) (i : Z) (v : R) : length (wr r i v) = length r.
Proof. unfold wr. destruct (i <? 0); [done|]. apply length_insert. Qed.

Lemma fold_wr_length {A : Type} (l : list A) (idx : A -> Z) (val : A -> R) (r : list R) :
  length (fold_left (fun r a => wr r (idx a) (val a)) l r) = length r.
Proof.
  revert r. induction l as [|a l IH]; intros r; simpl; [done|].
  rewrite IH. apply wr_length.
Qed.

Lemma column_major_split (xi yi ti j : Z) :
  0 <= j < xi * yi * ti -> 0 <= xi -> 0 <= yi -> 0 <= ti ->
  In [j mod xi; (j / xi) mod yi; j / (xi * yi)] (coords [xi; yi; ti]) /\
  linear [xi; yi; ti] [j mod xi; (j / xi) mod yi; j / (xi * yi)] = j.
Proof.
  intros Hj Hx Hy Ht.
  assert (0 < xi) by nia. assert (0 < yi) by nia.
  assert (Hd : j / (xi * yi) = j / xi / yi) by (rewrite Z.div_div; lia).
  split.
  - apply in_coords. repeat constructor.
    + apply Z.mod_pos_bound. lia.
    + apply Z.mod_pos_bound. lia.
    + apply Z.mod_pos_bound. lia.
    + apply Z.mod_pos_bound. lia.
    + apply Z.div_pos; nia.
    + apply Z.div_lt_upper_bound; nia.
  - rewrite !linear_cons. unfold linear. simpl. rewrite Hd.
    pose proof (Z.div_mod (j / xi) yi ltac:(lia)).
    pose proof (Z.div_mod j xi ltac:(lia)). lia.
Qed.

Lemma valid_filter_unit_kernel (image result : list R) (xi yi ti : Z) :
  0 <= xi -> 0 <= yi -> 0 <= ti ->
  length image = Z.to_nat (xi * yi * ti) ->
  length result = Z.to_nat (xi * yi * ti) ->
  valid_filter_exact zero add mul image xi yi ti [one] 1 1 1 1 1 1 result =
  map (fun v => add zero (mul v one)) image.
Proof.
  intros Hx Hy Ht Himg Hres.
  assert (Hout : [res_dim xi 1 1; res_dim yi 1 1; res_dim ti 1 1] = [xi; yi; ti]).
  { unfold res_dim. rewrite !Z.quot_1_r. f_equal; [lia|f_equal; [lia|f_equal; lia]]. }
  apply list_eq. intros j.
  destruct (decide (j < length image)%nat) as [Hj|Hj].
  - destruct (column_major_split xi yi ti (Z.of_nat j)) as [Hin Hlin]; [lia|lia|lia|lia|].
    pose proof (valid_filter_at zero add mul image [one] result xi yi ti 1 1 1 1 1 1) as H.
    cbv zeta in H. rewrite Hout in H.
    specialize (H ltac:(simpl; lia) _ Hin). rewrite Hlin, Nat2Z.id in H.
    rewrite H, list_lookup_fmap.
    destruct (image !! j) as [v|] eqn:Ev; [|apply lookup_ge_None in Ev; lia].
    simpl. f_equal. unfold correlate_at. simpl.
    unfold rd. simpl. rewrite !Z.mul_1_r, !Z.add_0_r.
    fold (linear [xi; yi; ti] [Z.of_nat j mod xi; Z.of_nat j / xi mod yi; Z.of_nat j / (xi * yi)]).
    rewrite Hlin. destruct (Z.of_nat j <? 0) eqn:E; [lia|]. rewrite Nat2Z.id, Ev. done.
  - rewrite !lookup_ge_None_2; [done| rewrite length_map; lia |].
    rewrite valid_filter_fold, fold_wr_length. lia.
Qed.

Lemma res_dim_unit (i : Z) : res_dim i 1 1 = i.
Proof. unfold res_dim. rewrite Z.quot_1_r. lia. Qed.

Lemma res_dim_c_unit (i : Z) : 0 <= i < 2 ^ 31 -> res_dim_c i 1 1 = Some (res_dim i 1 1).
Proof.
  intros Hi. rewrite res_dim_unit. unfold res_dim_c.
  rewrite ck_in by lia. cbn [mbind option_bind Z.eqb]. rewrite Z.quot_1_r.
  rewrite ck_in by lia. cbn [mbind option_bind]. rewrite ck_in by lia. f_equal. lia.
Qed.

(** With a 1x1x1 kernel and unit steps, [valid_filter] is defined on every
    image of [int] extents with fewer than [2^31] elements. *)
Lemma valid_filter_unit_defined (image result : list R) (xi yi ti : Z) :
  0 <= xi < 2 ^ 31 -> 0 <= yi < 2 ^ 31 -> 0 <= ti < 2 ^ 31 -> xi * yi * ti < 2 ^ 31 ->
  valid_filter zero add mul image xi yi ti [one] 1 1 1 1 1 1 result =
  Some (valid_filter_exact zero add mul image xi yi ti [one] 1 1 1 1 1 1 result).
Proof.
  intros Hx Hy Ht Hi. apply valid_filter_defined.
  - by apply res_dim_c_unit.
  - by apply res_dim_c_unit.
  - by apply res_dim_c_unit.
  - intros x fx. rewrite res_dim_unit. lia.
  - intros y fy. rewrite res_dim_unit. lia.
  - intros t ft. rewrite res_dim_unit. lia.
  - done.
  - lia.
  - rewrite !res_dim_unit. done.
Qed.

End UnitKernel.

Lemma calc_dim_unit (i : Z) : 0 <= i < 2 ^ 64 -> ValidCorrDn3.calc_dim i 1 1 = Some i.
Proof.
  intros Hi. destruct (Z.eq_dec i 0) as [->|Hne]; [reflexivity|].
  unfold ValidCorrDn3.calc_dim, u64. simpl (1 mod 2 ^ 64). simpl (1 =? 0). cbv iota.
  rewrite (Z.mod_small (i - 1)) by lia. rewrite Z.div_1_r, Z.sub_add.
  rewrite (Z.mod_small i) by lia. reflexivity.
Qed.

(** C3 (defect): a 1x1x1x2 input [1; 2] with the 1x1 kernel [1]: the
    output has two slices, but only the first is computed; the second stays
    the zero of [mxCreateNumericArray], whereas correlating the second input
    slice [2] in isolation gives [2] (a 1x1 array). *)
Theorem mexFunction_second_slice_unfilled :
  ValidCorrDn3.mexFunction [dbl [1; 1; 1; 2] [1; 2]%float; dbl [1; 1] [1]%float] =
    ValidCorrDn3.Ok ([1; 1; 1; 2], [1; 0]%float) /\
  ValidCorrDn3.mexFunction [dbl [1; 1; 1; 1] [2]%float; dbl [1; 1] [1]%float] =
    ValidCorrDn3.Ok ([1; 1], [2]%float).
Proof. split; vm_compute; reflexivity. Qed.

(** C4 (counterexample): a kernel larger than the image is not rejected
    with a kernel-size error.  A 2x1 image with a 3x1 kernel returns an
    empty 0x1 array; with a 4x1 kernel the [mwSize] extent wraps to
    [2^64 - 1], and [mxCreateNumericArray] aborts the call with an
    out-of-memory error. *)
Lemma kernel_too_large_accepted :
  ValidCorrDn3.mexFunction [dbl [2; 1] [1; 2]%float; dbl [3; 1] [1; 1; 1]%float] =
    ValidCorrDn3.Ok ([0; 1], []) /\
  ValidCorrDn3.calculateOutputDimensions [2; 1; 1; 1] [4; 1; 1; 1] [1; 1; 1] =
    Some [2 ^ 64 - 1; 1; 1; 1] /\
  ValidCorrDn3.mexFunction [dbl [2; 1] [1; 2]%float; dbl [4; 1] [1; 1; 1; 1]%float] =
    ValidCorrDn3.Err ValidCorrDn3.OutOfMemory.
Proof. split; [|split]; vm_compute; reflexivity. Qed.

(** C4 (as the code has it): [validateInputs] makes no kernel-size check:
    for every real dense double image and filter, whatever their
    dimensions, validation succeeds, [calculateOutputDimensions] computes
    the output extents, and the call can then only fail at the allocation
    (out of memory) or at undefined behaviour, never with a validation
    error. *)
Theorem validateInputs_no_kernel_check (di dk : list Z) (xi xk : list float) :
  ValidCorrDn3.validateInputs [dbl di xi; dbl dk xk] =
    ValidCorrDn3.Ok (dbl di xi, dbl dk xk, ValidCorrDn3.read_dims (dbl di xi),
                     ValidCorrDn3.read_dims (dbl dk xk), [1; 1; 1]) /\
  (exists result_dims,
     ValidCorrDn3.calculateOutputDimensions (ValidCorrDn3.read_dims (dbl di xi))
       (ValidCorrDn3.read_dims (dbl dk xk)) [1; 1; 1] = Some result_dims) /\
  (forall e, ValidCorrDn3.mexFunction [dbl di xi; dbl dk xk] = ValidCorrDn3.Err e ->
     e = ValidCorrDn3.OutOfMemory \/ e = ValidCorrDn3.Undefined).
Proof.
  assert (Hc : exists result_dims,
     ValidCorrDn3.calculateOutputDimensions (ValidCorrDn3.read_dims (dbl di xi))
       (ValidCorrDn3.read_dims (dbl dk xk)) [1; 1; 1] = Some result_dims).
  { unfold ValidCorrDn3.calculateOutputDimensions. cbn [lookup list_lookup default].
    unfold ValidCorrDn3.calc_dim. simpl (u64 1). simpl (1 =? 0). cbv iota.
    eexists. reflexivity. }
  split; [reflexivity|]. split; [exact Hc|].
  intros e. destruct Hc as [rdims Hc].
  unfold ValidCorrDn3.mexFunction. simpl ValidCorrDn3.validateInputs. cbn [ValidCorrDn3.bind].
  rewrite Hc. unfold ValidCorrDn3.mxCreateNumericArray.
  destruct (max_numel <? _); cbn [ValidCorrDn3.bind]; [intros [= <-]; by left|].
  destruct (ValidCorrDn3.performValidCorrelation _ _ _ _ _ _); [discriminate|].
  intros [= <-]. by right.
Qed.

(** C5 (counterexample): a step [0; 1; 1] passes validation (it only fails
    later, as an undefined division by zero in [calculateOutputDimensions]),
    and a step [-1; 1; 1] passes validation and yields an output. *)
Lemma zero_step_accepted :
  (exists v, ValidCorrDn3.validateInputs
     [dbl [3; 1] [1; 2; 3]%float; dbl [1; 1] [1]%float; dbl [1; 3] [0; 1; 1]%float] =
     ValidCorrDn3.Ok v) /\
  ValidCorrDn3.calculateOutputDimensions [3; 1; 1; 1] [1; 1; 1; 1] [0; 1; 1] = None /\
  ValidCorrDn3.mexFunction
     [dbl [3; 1] [1; 2; 3]%float; dbl [1; 1] [1]%float; dbl [1; 3] [-1; 1; 1]%float] =
     ValidCorrDn3.Ok ([1; 1], [0]%float).
Proof. split; [eexists; vm_compute; reflexivity | split; vm_compute; reflexivity]. Qed.

(** C5 (as the code has it): [validateInputs] makes no stride-value check:
    a 3-element double step vector whose elements convert to the [int]s
    [s0], [s1], [s2] passes validation with exactly these strides, zero and
    negative ones included; a zero stride reaches [calculateOutputDimensions],
    where it is an undefined division by zero. *)
Theorem validateInputs_no_stride_check (di dk sd : list Z) (xi xk : list float)
    (d0 d1 d2 : float) (s0 s1 s2 : Z) :
  mxGetNumberOfElements (dbl sd [d0; d1; d2]) = 3 ->
  cast_int d0 = Some s0 -> cast_int d1 = Some s1 -> cast_int d2 = Some s2 ->
  ValidCorrDn3.validateInputs [dbl di xi; dbl dk xk; dbl sd [d0; d1; d2]] =
    ValidCorrDn3.Ok (dbl di xi, dbl dk xk, ValidCorrDn3.read_dims (dbl di xi),
                     ValidCorrDn3.read_dims (dbl dk xk), [s0; s1; s2]) /\
  (s0 = 0 \/ s1 = 0 \/ s2 = 0 ->
   ValidCorrDn3.calculateOutputDimensions (ValidCorrDn3.read_dims (dbl di xi))
     (ValidCorrDn3.read_dims (dbl dk xk)) [s0; s1; s2] = None).
Proof.
  intros Hn H0 H1 H2. split.
  - unfold ValidCorrDn3.validateInputs. simpl mx_double. simpl mx_sparse. simpl mx_complex.
    cbn [negb orb]. rewrite Hn. simpl (3 =? 3). cbn [negb orb].
    unfold ValidCorrDn3.read_step. simpl. rewrite H0, H1, H2. reflexivity.
  - intros Hz. unfold ValidCorrDn3.calculateOutputDimensions, ValidCorrDn3.calc_dim.
    destruct Hz as [ -> | [ -> | -> ] ]; simpl; repeat case_match; done.
Qed.

Lemma validateInputs_no_stride_check_witness :
  ValidCorrDn3.validateInputs
    [dbl [3; 1] [1; 2; 3]%float; dbl [1; 1] [1]%float; dbl [1; 3] [0; 1; 1]%float] =
    ValidCorrDn3.Ok (dbl [3; 1] [1; 2; 3]%float, dbl [1; 1] [1]%float,
                     ValidCorrDn3.read_dims (dbl [3; 1] [1; 2; 3]%float),
                     ValidCorrDn3.read_dims (dbl [1; 1] [1]%float), [0; 1; 1]) /\
  (0 = 0 \/ 1 = 0 \/ 1 = 0 ->
   ValidCorrDn3.calculateOutputDimensions (ValidCorrDn3.read_dims (dbl [3; 1] [1; 2; 3]%float))
     (ValidCorrDn3.read_dims (dbl [1; 1] [1]%float)) [0; 1; 1] = None).
Proof. apply validateInputs_no_stride_check; vm_compute; reflexivity. Defined.

(** C6 (counterexample): for the 3x3 input [1..9] and the 2x2 all-ones
    kernel, the column-major output buffer is not [12; 24; 16; 28]. *)
Lemma example_3x3_not_12_24_16_28 :
  ValidCorrDn3.mexFunction
    [dbl [3; 3] [1; 2; 3; 4; 5; 6; 7; 8; 9]%float; dbl [2; 2] [1; 1; 1; 1]%float] <>
  ValidCorrDn3.Ok ([2; 2], [12; 24; 16; 28]%float).
Proof.
  intros H.
  apply (f_equal (fun r => match r with
                           | ValidCorrDn3.Ok (_, l) => PrimFloat.eqb (default 0%float (l !! 1%nat)) 24
                           | ValidCorrDn3.Err _ => false
                           end)) in H.
  vm_compute in H. discriminate.
Qed.

(** C6 (as the code has it): the output is 2x2 with column-major buffer
    [12; 16; 24; 28], i.e. out(0,0)=12, out(1,0)=16, out(0,1)=24, out(1,1)=28. *)
Theorem example_3x3_ones_2x2 :
  ValidCorrDn3.mexFunction
    [dbl [3; 3] [1; 2; 3; 4; 5; 6; 7; 8; 9]%float; dbl [2; 2] [1; 1; 1; 1]%float] =
  ValidCorrDn3.Ok ([2; 2], [12; 16; 24; 28]%float).
Proof. vm_compute. reflexivity. Qed.

Lemma to_int32_small (z : Z) : 0 <= z < 2 ^ 31 -> to_int32 z = z.
Proof.
  intros Hz. unfold to_int32. rewrite Z.mod_small by lia.
  destruct (Z.ltb_spec z (2 ^ 31)); lia.
Qed.

(** A MATLAB array of two or three dimensions, as MATLAB reports them (no
    trailing singleton past the second), is re-created with its own
    dimensions from the four extents [validCorrDn3] reads. *)
Lemma mx_create_dims_read (dims : list Z) (image : list float) (xi yi ti : Z) :
  (2 <= length dims <= 3)%nat -> mx_create_dims dims = dims ->
  ValidCorrDn3.read_dims (dbl dims image) = [xi; yi; ti; 1] ->
  mx_create_dims [xi; yi; ti; 1] = dims.
Proof.
  intros Hlen Hnorm Hd. unfold ValidCorrDn3.read_dims in Hd. cbn [mx_dims dbl] in Hd.
  destruct dims as [|a [|b [|c [|d rest]]]]; cbn [length] in Hlen; try lia.
  - cbn in Hd. injection Hd as <- <- <-. reflexivity.
  - cbn in Hd. injection Hd as <- <- <-.
    unfold mx_create_dims in *. cbn in *.
    destruct (Z.eqb_spec c 1); [discriminate|]. reflexivity.
Qed.

(** C7 (counterexample): the input [-0.0] with the kernel [1.0] gives
    [+0.0], which is not the input bit for bit. *)
Lemma unit_kernel_negative_zero :
  ValidCorrDn3.mexFunction [dbl [1; 1] [(-0)%float]; dbl [1; 1] [1%float]] <>
  ValidCorrDn3.Ok ([1; 1], [(-0)%float]).
Proof.
  intros H.
  apply (f_equal (fun r => match r with
                           | ValidCorrDn3.Ok (_, l) => Prim2SF (default 0%float (l !! 0%nat))
                           | ValidCorrDn3.Err _ => S754_nan
                           end)) in H.
  vm_compute in H. discriminate.
Qed.

(** C7 (as the code has it): for an input of two or three dimensions (no
    pass-through axis), each extent below [2^31] and fewer than [2^31]
    elements, a 1x1 kernel [1.0] and the default stride, the output has the
    input's dimensions and its element [j] is the double [0.0 + in[j] * 1.0]. *)
Theorem unit_kernel_output (dims : list Z) (image : list float) (xi yi ti : Z) :
  (2 <= length dims <= 3)%nat -> mx_create_dims dims = dims ->
  ValidCorrDn3.read_dims (dbl dims image) = [xi; yi; ti; 1] ->
  0 <= xi < 2 ^ 31 -> 0 <= yi < 2 ^ 31 -> 0 <= ti < 2 ^ 31 -> xi * yi * ti < 2 ^ 31 ->
  length image = Z.to_nat (xi * yi * ti) ->
  ValidCorrDn3.mexFunction [dbl dims image; dbl [1; 1] [1%float]] =
  ValidCorrDn3.Ok (dims, map (fun v => (0 + v * 1)%float) image).
Proof.
  intros Hlen Hnorm Hd Hx Hy Ht Hi Himg.
  pose proof (mx_create_dims_read dims image xi yi ti Hlen Hnorm Hd) as Hcr.
  unfold ValidCorrDn3.mexFunction.
  change (ValidCorrDn3.validateInputs [dbl dims image; dbl [1; 1] [1%float]]) with
    (ValidCorrDn3.Ok (dbl dims image, dbl [1; 1] [1%float],
                      ValidCorrDn3.read_dims (dbl dims image), [1; 1; 1; 1], [1; 1; 1])).
  rewrite Hd. cbn [ValidCorrDn3.bind].
  assert (Hc : ValidCorrDn3.calculateOutputDimensions [xi; yi; ti; 1] [1; 1; 1; 1] [1; 1; 1] =
               Some [xi; yi; ti; 1]).
  { unfold ValidCorrDn3.calculateOutputDimensions. cbn -[ValidCorrDn3.calc_dim].
    rewrite !calc_dim_unit by lia. done. }
  rewrite Hc. unfold ValidCorrDn3.mxCreateNumericArray.
  replace (foldr Z.mul 1 [xi; yi; ti; 1]) with (xi * yi * ti) by (simpl; ring).
  rewrite (proj2 (Z.ltb_ge _ _)) by (unfold max_numel; lia).
  cbn [ValidCorrDn3.bind]. rewrite Hcr.
  unfold ValidCorrDn3.performValidCorrelation. cbn -[to_int32 valid_filter_d].
  rewrite !to_int32_small by lia. change (to_int32 1) with 1.
  unfold valid_filter_d. rewrite valid_filter_unit_defined by lia.
  rewrite valid_filter_unit_kernel; [done|lia|lia|lia|done|].
  rewrite length_replicate. lia.
Qed.

Lemma unit_kernel_output_witness :
  ValidCorrDn3.mexFunction [dbl [2; 2] [1; 2; 3; 4]%float; dbl [1; 1] [1%float]] =
  ValidCorrDn3.Ok ([2; 2], map (fun v => (0 + v * 1)%float) [1; 2; 3; 4]%float).
Proof. apply (unit_kernel_output [2; 2] _ 2 2 1); try reflexivity; simpl; lia. Defined.

(** ** destructiveMatrixWriteAtIndices *)

Lemma numel_wf (a : mxArray) :
  mx_wf a -> u64 (mxGetM a * mxGetN a) = foldr Z.mul 1 (mx_dims a).
Proof.
  intros (Hlen & Hnn & Hmax & _). unfold mxGetM, mxGetN, u64, max_numel in *.
  destruct (mx_dims a) as [|d ds]; [simpl in Hlen; lia|].
  simpl in *. rewrite drop_0. rewrite Z.mul_mod_idemp_r by lia.
  inversion Hnn as [|? ? Hd Hds]; subst.
  assert (0 <= foldr Z.mul 1 ds).
  { clear -Hds. induction Hds; simpl; lia. }
  apply Z.mod_small. nia.
Qed.

Lemma loop_copy (n : nat) (i s : Z) (src dst : list float) :
  0 <= s -> 0 <= i -> s + i + Z.of_nat n <= Z.of_nat (length dst) ->
  s + i + Z.of_nat n < 2 ^ 64 ->
  forall j : nat,
  loop n i (fun k d => wr d (u64 (s + k)) (rd 0%float src k)) dst !! j =
  if decide (s + i <= Z.of_nat j < s + i + Z.of_nat n)
  then Some (rd 0%float src (Z.of_nat j - s)) else dst !! j.
Proof.
  revert i dst. induction n as [|n IH]; intros i dst Hs Hi Hlen Hmax j; simpl.
  - destruct (decide _); [lia|done].
  - assert (Hw : wr dst (u64 (s + i)) (rd 0%float src i) =
                 <[Z.to_nat (s + i) := rd 0%float src i]> dst).
    { unfold wr, u64. rewrite Z.mod_small by lia.
      destruct (Z.ltb_spec (s + i) 0); [lia|done]. }
    rewrite IH; [|lia|lia|rewrite Hw, length_insert; lia|lia].
    rewrite Hw.
    destruct (decide (s + (i + 1) <= Z.of_nat j < s + (i + 1) + Z.of_nat n)).
    + destruct (decide _); [done|lia].
    + destruct (decide (Z.of_nat j = s + i)) as [Ej|Ej].
      * assert (j = Z.to_nat (s + i)) as -> by lia.
        rewrite list_lookup_insert_eq by lia.
        destruct (decide _); [|lia]. do 2 f_equal. lia.
      * rewrite list_lookup_insert_ne by lia.
        destruct (decide _); [lia|done].
Qed.

Lemma rd_lookup (src : list float) (k : nat) :
  (k < length src)%nat -> Some (rd 0%float src (Z.of_nat k)) = src !! k.
Proof.
  intros Hk. unfold rd. destruct (Z.ltb_spec (Z.of_nat k) 0); [lia|].
  rewrite Nat2Z.id. destruct (src !! k) eqn:E; [done|].
  apply lookup_ge_None in E. lia.
Qed.

(** C9: with well-formed double arguments and a start value that converts
    to the [size_t] [s] (truncation toward zero), [destructiveMatrixWriteAtIndices]
    reports an error exactly when [s >= size(target)] or
    [s + count(newValues) > size(target)]; on an error no array is modified;
    otherwise it overwrites [target[s .. s + count - 1]] with [newValues] in
    order (0-based) and leaves every other element of the target unchanged. *)
Theorem destructive_write_spec (mtx newv st : mxArray) (d : float) (s : Z) :
  mx_wf mtx -> mx_wf newv ->
  notDblMtx mtx = false -> notDblMtx newv = false -> notDblMtx st = false ->
  mxGetNumberOfElements st = 1 -> mx_pr st !! 0%nat = Some d ->
  cast_size_t d = Some s ->
  (fst (DestructiveWrite.mexFunction [mtx; newv; st]) <> DestructiveWrite.Done <->
   foldr Z.mul 1 (mx_dims mtx) <= s \/
   foldr Z.mul 1 (mx_dims mtx) < s + foldr Z.mul 1 (mx_dims newv)) /\
  (fst (DestructiveWrite.mexFunction [mtx; newv; st]) <> DestructiveWrite.Done ->
   snd (DestructiveWrite.mexFunction [mtx; newv; st]) = [mtx; newv; st]) /\
  (fst (DestructiveWrite.mexFunction [mtx; newv; st]) = DestructiveWrite.Done ->
   exists data,
     snd (DestructiveWrite.mexFunction [mtx; newv; st]) = [set_pr mtx data; newv; st] /\
     length data = length (mx_pr mtx) /\
     forall j : nat,
       data !! j =
       if decide (s <= Z.of_nat j < s + foldr Z.mul 1 (mx_dims newv))
       then mx_pr newv !! (j - Z.to_nat s)%nat
       else mx_pr mtx !! j).
Proof.
  intros Hwm Hwn Hm Hn Hst He Hd Hc.
  assert (Hs : 0 <= s < 2 ^ 64).
  { unfold cast_size_t in Hc. destruct (trunc_double d); [|done].
    destruct ((0 <=? z) && (z <? 2 ^ 64)) eqn:E; [|done].
    injection Hc as <-. apply andb_prop in E as [E1 E2]. lia. }
  pose proof (numel_wf _ Hwm) as Hsz. pose proof (numel_wf _ Hwn) as Hcnt.
  destruct Hwm as (_ & Hmnn & Hmmax & Hmlen). destruct Hwn as (_ & Hnnn & Hnmax & Hnlen).
  unfold max_numel in *.
  assert (0 <= foldr Z.mul 1 (mx_dims newv)).
  { clear -Hnnn. induction Hnnn; simpl; lia. }
  unfold DestructiveWrite.mexFunction. rewrite Hm, Hn, Hst, He, Hd. cbn [negb orb default id].
  simpl (1 =? 1). cbn [negb orb]. rewrite Hc, Hsz, Hcnt.
  destruct (Z.leb_spec (foldr Z.mul 1 (mx_dims mtx)) s) as [Hge|Hlt].
  - cbn [orb fst snd].
    split; [split; [intros _; by left|intros _; discriminate]|]. split; [done|]. discriminate.
  - cbn [orb].
    replace (u64 (s + foldr Z.mul 1 (mx_dims newv))) with (s + foldr Z.mul 1 (mx_dims newv))
      by (unfold u64; rewrite Z.mod_small; lia).
    destruct (Z.ltb_spec (foldr Z.mul 1 (mx_dims mtx)) (s + foldr Z.mul 1 (mx_dims newv)))
      as [E2|E2]; cbn [fst snd].
    + split; [split; [intros _; by right|intros _; discriminate]|]. split; [done|]. discriminate.
    + split; [split; [done|lia]|]. split; [done|]. intros _.
      eexists. split; [reflexivity|].
      unfold for_lt. rewrite Z.sub_0_r. split.
      * rewrite loop_fold. apply (fold_wr_length (R := float)).
      * intros j. rewrite loop_copy by lia. rewrite Z.add_0_r, Z2Nat.id by lia.
        destruct (decide _) as [Hj|Hj]; [|done].
        replace (Z.of_nat j - s) with (Z.of_nat (j - Z.to_nat s)) by lia.
        apply rd_lookup. lia.
Qed.

Lemma destructive_write_spec_witness :
  let mtx := dbl [1; 5] [1; 2; 3; 4; 5]%float in
  let newv := dbl [1; 2] [10; 20]%float in
  let st := dbl [1; 1] [2%float] in
  (fst (DestructiveWrite.mexFunction [mtx; newv; st]) <> DestructiveWrite.Done <->
   foldr Z.mul 1 (mx_dims mtx) <= 2 \/
   foldr Z.mul 1 (mx_dims mtx) < 2 + foldr Z.mul 1 (mx_dims newv)) /\
  (fst (DestructiveWrite.mexFunction [mtx; newv; st]) <> DestructiveWrite.Done ->
   snd (DestructiveWrite.mexFunction [mtx; newv; st]) = [mtx; newv; st]) /\
  (fst (DestructiveWrite.mexFunction [mtx; newv; st]) = DestructiveWrite.Done ->
   exists data,
     snd (DestructiveWrite.mexFunction [mtx; newv; st]) = [set_pr mtx data; newv; st] /\
     length data = length (mx_pr mtx) /\
     forall j : nat,
       data !! j =
       if decide (2 <= Z.of_nat j < 2 + foldr Z.mul 1 (mx_dims newv))
       then mx_pr newv !! (j - Z.to_nat 2)%nat
       else mx_pr mtx !! j).
Proof.
  intros mtx newv st.
  apply (destructive_write_spec mtx newv st 2%float 2);
    unfold mx_wf, max_numel; simpl; try reflexivity;
    repeat split; repeat constructor; lia.
Defined.

(** ** pointOp *)

Lemma leb_zero_not_pos (x : float) :
  (x <=? 0)%float = true -> (0 <? x)%float = false.
Proof.
  rewrite FloatAxioms.leb_spec, FloatAxioms.ltb_spec.
  replace (Prim2SF 0%float) with (S754_zero false) by (vm_compute; reflexivity).
  destruct (Prim2SF x) as [sx|sx| |sx mx ex]; try destruct sx; cbn; done.
Qed.

Lemma pointop_const_loop (l0 : float) (n : nat) (i : Z) (st : PointOp.state) :
  0 <= i -> i + Z.of_nat n <= Z.of_nat (length (PointOp.res st)) ->
  exists st',
    loop n i (fun i st => match st with
                          | Some st => Some (PointOp.State (wr (PointOp.res st) i l0)
                                               (PointOp.l_unwarned st) (PointOp.r_unwarned st)
                                               (PointOp.printed st))
                          | None => None
                          end) (Some st) = Some st' /\
    forall j : nat,
      PointOp.res st' !! j =
      if decide (i <= Z.of_nat j < i + Z.of_nat n) then Some l0 else PointOp.res st !! j.
Proof.
  revert i st. induction n as [|n IH]; intros i st Hi Hlen; simpl.
  - exists st. split; [done|]. intros j. destruct (decide _); [lia|done].
  - assert (Hw : wr (PointOp.res st) i l0 = <[Z.to_nat i := l0]> (PointOp.res st)).
    { unfold wr. destruct (Z.ltb_spec i 0); [lia|done]. }
    destruct (IH (i + 1) (PointOp.State (wr (PointOp.res st) i l0) (PointOp.l_unwarned st)
                            (PointOp.r_unwarned st) (PointOp.printed st)))
      as [st' [Hst' Hres]]; [lia| simpl; rewrite Hw, length_insert; lia |].
    exists st'. split; [done|]. intros j. rewrite Hres. simpl. rewrite Hw.
    destruct (decide (i + 1 <= Z.of_nat j < i + 1 + Z.of_nat n)).
    + destruct (decide _); [done|lia].
    + destruct (decide (Z.of_nat j = i)) as [Ej|Ej].
      * assert (j = Z.to_nat i) as -> by lia.
        rewrite list_lookup_insert_eq by lia. destruct (decide _); [done|lia].
      * rewrite list_lookup_insert_ne by lia. destruct (decide _); [lia|done].
Qed.

(** C10: in [internal_pointop], whenever [increment] is not strictly
    positive -- every [increment <= 0], and also NaN -- the interpolation
    branch is not taken and every element of the result is [lut[0]],
    whatever the image, the origin and the other table entries. *)
Theorem pointop_nonpositive_increment (im res0 : list float) (size : Z)
    (l0 : float) (lrest : list float) (lutsize : Z) (origin : float) (warnings : Z) :
  0 <= size -> length res0 = Z.to_nat size ->
  (forall increment, (increment <=? 0)%float = true ->
     (0 <? increment)%float = false /\
     option_map PointOp.res
       (PointOp.internal_pointop im res0 size (l0 :: lrest) lutsize origin increment warnings) =
     Some (replicate (Z.to_nat size) l0)) /\
  (forall increment, (0 <? increment)%float = false ->
     option_map PointOp.res
       (PointOp.internal_pointop im res0 size (l0 :: lrest) lutsize origin increment warnings) =
     Some (replicate (Z.to_nat size) l0)).
Proof.
  intros Hsize Hlen.
  assert (Hconst : forall increment, (0 <? increment)%float = false ->
     option_map PointOp.res
       (PointOp.internal_pointop im res0 size (l0 :: lrest) lutsize origin increment warnings) =
     Some (replicate (Z.to_nat size) l0)).
  { intros increment Hinc. unfold PointOp.internal_pointop. rewrite Hinc.
    unfold for_lt. rewrite Z.sub_0_r.
    change (rd 0%float (l0 :: lrest) 0) with l0.
    destruct (pointop_const_loop l0 (Z.to_nat size) 0
                (PointOp.State res0 warnings warnings [])) as [st' [-> Hres]];
      [lia|simpl; lia|].
    simpl. f_equal. apply list_eq. intros j. rewrite Hres. simpl.
    destruct (decide _) as [Hj|Hj].
    - rewrite lookup_replicate_2; [done|lia].
    - rewrite !lookup_ge_None_2; [done| rewrite length_replicate; lia | lia]. }
  split; [|done].
  intros increment Hle. pose proof (leb_zero_not_pos _ Hle) as Hpos.
  split; [done|]. by apply Hconst.
Qed.

Lemma pointop_nonpositive_increment_witness :
  (forall increment, (increment <=? 0)%float = true ->
     (0 <? increment)%float = false /\
     option_map PointOp.res
       (PointOp.internal_pointop [5; 6]%float [0; 0]%float 2 (7%float :: [8; 9]%float) 3
          1%float increment 1) =
     Some (replicate (Z.to_nat 2) 7%float)) /\
  (forall increment, (0 <? increment)%float = false ->
     option_map PointOp.res
       (PointOp.internal_pointop [5; 6]%float [0; 0]%float 2 (7%float :: [8; 9]%float) 3
          1%float increment 1) =
     Some (replicate (Z.to_nat 2) 7%float)).
Proof. apply pointop_nonpositive_increment; [lia|reflexivity]. Defined.

(** ** Further properties of the code *)

(** *** Loop invariants *)

Lemma loop_inv {S : Type} (P : S -> Prop) (n : nat) (i : Z) (body : Z -> S -> S) (s : S) :
  P s -> (forall k s, P s -> P (body k s)) -> P (loop n i body s).
Proof.
  revert i s. induction n as [|n IH]; intros i s H0 Hstep; simpl; [done|].
  apply IH; [by apply Hstep|done].
Qed.

Lemma loop_ind {S : Type} (P : Z -> S -> Prop) (n : nat) (i : Z) (body : Z -> S -> S) (s : S) :
  P i s -> (forall k s, i <= k < i + Z.of_nat n -> P k s -> P (k + 1) (body k s)) ->
  P (i + Z.of_nat n) (loop n i body s).
Proof.
  revert i s. induction n as [|n IH]; intros i s H0 Hstep.
  - by rewrite Z.add_0_r.
  - cbn [loop]. replace (i + Z.of_nat (Datatypes.S n)) with (i + 1 + Z.of_nat n) by lia.
    apply IH; [apply Hstep; [lia|done]|]. intros k s' Hk. apply Hstep. lia.
Qed.

Lemma rd_in (l : list float) (k : Z) : 0 <= k < Z.of_nat (length l) -> In (rd 0%float l k) l.
Proof.
  intros Hk. replace k with (Z.of_nat (Z.to_nat k)) by lia.
  apply list_elem_of_In, (list_elem_of_lookup_2 _ (Z.to_nat k)).
  symmetry. apply rd_lookup. lia.
Qed.

Lemma rd_some (l : list float) (k : Z) :
  0 <= k < Z.of_nat (length l) -> l !! Z.to_nat k = Some (rd 0%float l k).
Proof.
  intros Hk. rewrite <- (rd_lookup l (Z.to_nat k)) by lia. by rewrite Z2Nat.id by lia.
Qed.

(** *** The order of doubles *)

Lemma SFcompare_key (x y : spec_float) :
  x <> S754_nan -> y <> S754_nan ->
  (SFcompare x y = Some Lt <-> key_lt (fkey x) (fkey y)) /\
  (SFcompare x y = Some Gt <-> key_lt (fkey y) (fkey x)) /\
  SFcompare x y <> None.
Proof.
  intros Hx Hy.
  destruct x as [sx|sx| |sx mx ex]; [| |done|]; destruct y as [sy|sy| |sy my ey]; try done;
    try destruct sx; try destruct sy; cbn;
    try (repeat split; intros; try congruence; try (exfalso; lia); lia).
  all: change (Pos.compare_cont Eq mx my) with (Pos.compare mx my).
  all: destruct (Z.compare_spec ex ey); destruct (Pos.compare_spec mx my); subst; cbn;
    repeat split; intros; try congruence; try (exfalso; lia); lia.
Qed.

Lemma is_nan_iff (x : float) : PrimFloat.is_nan x = true <-> Prim2SF x = S754_nan.
Proof.
  unfold PrimFloat.is_nan. rewrite FloatAxioms.eqb_spec. unfold SFeqb.
  destruct (Prim2SF x) as [s|s| |s m e]; cbn; try (destruct s); cbn; try (split; congruence).
  all: pose proof (Z.compare_refl e) as Ee; pose proof (Pos.compare_cont_refl m Eq) as Em.
  all: destruct (e ?= e)%Z; try discriminate; rewrite Em; cbn; split; congruence.
Qed.

Lemma is_nan_Prim2SF (x : float) : PrimFloat.is_nan x = false -> Prim2SF x <> S754_nan.
Proof. intros Hx E. apply is_nan_iff in E. congruence. Qed.

Lemma ltb_key (x y : float) :
  PrimFloat.is_nan x = false -> PrimFloat.is_nan y = false ->
  ((x <? y)%float = true <-> key_lt (fkey (Prim2SF x)) (fkey (Prim2SF y))).
Proof.
  intros Hx Hy. rewrite FloatAxioms.ltb_spec. unfold SFltb.
  destruct (SFcompare_key _ _ (is_nan_Prim2SF _ Hx) (is_nan_Prim2SF _ Hy)) as (H1 & H2 & H3).
  destruct (SFcompare _ _) as [[]|]; intuition congruence.
Qed.

Lemma key_lt_asym (k k' : Z * Z * Z) : key_lt k k' -> ~ key_lt k' k.
Proof. destruct k as [[a b] c], k' as [[a' b'] c']. cbn. lia. Qed.

Lemma key_lt_total (k k' k'' : Z * Z * Z) :
  ~ key_lt k k' -> ~ key_lt k' k'' -> ~ key_lt k k''.
Proof. destruct k as [[a b] c], k' as [[a' b'] c'], k'' as [[a'' b''] c'']. cbn. lia. Qed.

Lemma leb_key (x y : float) :
  PrimFloat.is_nan x = false -> PrimFloat.is_nan y = false ->
  ((x <=? y)%float = true <-> ~ key_lt (fkey (Prim2SF y)) (fkey (Prim2SF x))).
Proof.
  intros Hx Hy. rewrite FloatAxioms.leb_spec. unfold SFleb.
  destruct (SFcompare_key _ _ (is_nan_Prim2SF _ Hx) (is_nan_Prim2SF _ Hy)) as (H1 & H2 & H3).
  destruct (SFcompare _ _) as [[]|] eqn:E.
  - split; [|done]. intros _ Hk. apply H2 in Hk. congruence.
  - split; [|done]. intros _. apply key_lt_asym. by apply H1.
  - split; [done|]. intros Hk. exfalso. apply Hk. by apply H2.
  - done.
Qed.

Lemma fle_refl (x : float) : PrimFloat.is_nan x = false -> (x <=? x)%float = true.
Proof.
  intros Hx. apply leb_key; [done|done|]. destruct (fkey (Prim2SF x)) as [[a b] c]. cbn. lia.
Qed.

Lemma flt_le (x y : float) :
  PrimFloat.is_nan x = false -> PrimFloat.is_nan y = false ->
  (x <? y)%float = true -> (x <=? y)%float = true.
Proof.
  intros Hx Hy H. apply leb_key; [done|done|]. apply ltb_key in H; [|done|done].
  by apply key_lt_asym.
Qed.

Lemma fnlt_le (x y : float) :
  PrimFloat.is_nan x = false -> PrimFloat.is_nan y = false ->
  (x <? y)%float = false -> (y <=? x)%float = true.
Proof.
  intros Hx Hy H. apply leb_key; [done|done|]. intros Hk.
  apply (ltb_key x y Hx Hy) in Hk. congruence.
Qed.

Lemma fle_trans (x y z : float) :
  PrimFloat.is_nan x = false -> PrimFloat.is_nan y = false -> PrimFloat.is_nan z = false ->
  (x <=? y)%float = true -> (y <=? z)%float = true -> (x <=? z)%float = true.
Proof.
  intros Hx Hy Hz H1 H2. apply leb_key in H1, H2; try done. apply leb_key; [done|done|].
  eapply key_lt_total; eassumption.
Qed.

Lemma ltb_nan_r (x y : float) : PrimFloat.is_nan y = true -> (x <? y)%float = false.
Proof.
  intros Hy. apply is_nan_iff in Hy. rewrite FloatAxioms.ltb_spec, Hy.
  unfold SFltb. destruct (Prim2SF x); done.
Qed.

Lemma ltb_nan_l (x y : float) : PrimFloat.is_nan x = true -> (x <? y)%float = false.
Proof.
  intros Hx. apply is_nan_iff in Hx. rewrite FloatAxioms.ltb_spec, Hx. done.
Qed.

(** *** dsqr *)

Lemma loop_square (n : nat) (i : Z) (d : list float) :
  0 <= i -> i + Z.of_nat n <= Z.of_nat (length d) ->
  forall j : nat,
  loop n i (fun k d => wr d k (rd 0%float d k * rd 0%float d k)%float) d !! j =
  if decide (i <= Z.of_nat j < i + Z.of_nat n)
  then (fun x => (x * x)%float) <$> d !! j else d !! j.
Proof.
  revert i d. induction n as [|n IH]; intros i d Hi Hlen j; cbn [loop].
  - destruct (decide _); [lia|done].
  - assert (Hw : wr d i (rd 0%float d i * rd 0%float d i)%float =
                 <[Z.to_nat i := (rd 0%float d i * rd 0%float d i)%float]> d).
    { unfold wr. destruct (Z.ltb_spec i 0); [lia|done]. }
    rewrite IH; [|lia|rewrite Hw, length_insert; lia]. rewrite Hw.
    destruct (decide (i + 1 <= Z.of_nat j < i + 1 + Z.of_nat n)).
    + rewrite list_lookup_insert_ne by lia. destruct (decide _); [done|lia].
    + destruct (decide (Z.of_nat j = i)) as [Ej|Ej].
      * assert (j = Z.to_nat i) as -> by lia.
        rewrite list_lookup_insert_eq by lia. rewrite (rd_some d i) by lia.
        destruct (decide _); [done|lia].
      * rewrite list_lookup_insert_ne by lia. destruct (decide _); [lia|done].
Qed.

(** *** pointOp *)

Lemma cast_size_t_nonneg (d : float) (z : Z) : cast_size_t d = Some z -> 0 <= z.
Proof.
  unfold cast_size_t. destruct (trunc_double d); [|done].
  destruct ((0 <=? z0) && (z0 <? 2 ^ 64)) eqn:E; [|done].
  intros [= <-]. apply andb_prop in E as [E1 _]. lia.
Qed.

(** *** The correlation kernel touches only its outputs and its inputs' first slices *)

Lemma fold_left_ext_in {A B : Type} (f g : A -> B -> A) (l : list B) (s : A) :
  (forall a b, In b l -> f a b = g a b) -> fold_left f l s = fold_left g l s.
Proof.
  intros Hfg. revert s. induction l as [|b l IH]; intros s; simpl; [done|].
  rewrite Hfg by (by left). apply IH. intros a b' Hb. apply Hfg. by right.
Qed.

Section KernelFootprint.

Context {R : Type} (zero : R) (add mul : R -> R -> R).

Lemma fold_wr_other {A : Type} (l : list A) (idx : A -> Z) (val : A -> R)
    (r : list R) (j : nat) :
  (forall a, In a l -> 0 <= idx a /\ Z.to_nat (idx a) <> j) ->
  fold_left (fun r a => wr r (idx a) (val a)) l r !! j = r !! j.
Proof.
  revert r. induction l as [|a l IH]; intros r Hl; simpl; [done|].
  rewrite IH by (intros b Hb; apply Hl; by right).
  destruct (Hl a (or_introl eq_refl)) as [H0 Hne].
  unfold wr. destruct (Z.ltb_spec (idx a) 0); [lia|]. by rewrite list_lookup_insert_ne.
Qed.

Lemma valid_filter_outside (image filt result : list R) (xi yi ti xf yf tf xs ys ts : Z)
    (j : nat) :
  Z.max 0 (res_dim xi xf xs) * Z.max 0 (res_dim yi yf ys) * Z.max 0 (res_dim ti tf ts)
    <= Z.of_nat j ->
  valid_filter_exact zero add mul image xi yi ti filt xf yf tf xs ys ts result !! j = result !! j.
Proof.
  intros Hj. rewrite valid_filter_fold. apply fold_wr_other.
  intros c Hc. apply in_coords in Hc as Hc2. pose proof (linear_bounds _ _ Hc2) as Hb.
  inversion Hc2 as [|c0 d0 cs ds H0 Hcs]; subst.
  inversion Hcs as [|c1 d1 cs' ds' H1 Hcs']; subst.
  inversion Hcs' as [|c2 d2 cs'' ds'' H2 Hcs'']; subst.
  inversion Hcs''; subst. cbn [foldr] in Hb.
  rewrite !Z.max_r in Hj by lia. split; [lia|]. nia.
Qed.

Lemma rd_take (l : list R) (n i : Z) :
  0 <= i < n -> rd zero (take (Z.to_nat n) l) i = rd zero l i.
Proof.
  intros Hi. unfold rd. destruct (Z.ltb_spec i 0); [lia|].
  rewrite lookup_take_lt by lia. done.
Qed.

Lemma valid_filter_take (image filt result : list R) (xi yi ti xf yf tf xs ys ts : Z) :
  0 <= xf <= xi -> 0 <= yf <= yi -> 0 <= tf <= ti -> 1 <= xs -> 1 <= ys -> 1 <= ts ->
  valid_filter_exact zero add mul image xi yi ti filt xf yf tf xs ys ts result =
  valid_filter_exact zero add mul (take (Z.to_nat (xi * yi * ti)) image) xi yi ti
    (take (Z.to_nat (xf * yf * tf)) filt) xf yf tf xs ys ts result.
Proof.
  intros Hx Hy Ht Hxs Hys Hts. rewrite !valid_filter_fold.
  rewrite (res_dim_floor xi), (res_dim_floor yi), (res_dim_floor ti) by lia.
  apply fold_left_ext_in. intros r c Hc. f_equal.
  apply in_coords in Hc.
  inversion Hc as [|c0 d0 cs ds H0 Hcs]; subst.
  inversion Hcs as [|c1 d1 cs' ds' H1 Hcs']; subst.
  inversion Hcs' as [|c2 d2 cs'' ds'' H2 Hcs'']; subst. inversion Hcs''; subst.
  assert (c0 * xs <= xi - xf).
  { pose proof (Z.mul_div_le (xi - xf) xs ltac:(lia)). nia. }
  assert (c1 * ys <= yi - yf).
  { pose proof (Z.mul_div_le (yi - yf) ys ltac:(lia)). nia. }
  assert (c2 * ts <= ti - tf).
  { pose proof (Z.mul_div_le (ti - tf) ts ltac:(lia)). nia. }
  unfold correlate_at. apply fold_left_ext_in. intros sum off Hoff.
  apply in_coords in Hoff as Hoff2. pose proof (linear_bounds _ _ Hoff2) as Hkb.
  inversion Hoff2 as [|o0 e0 os es G0 Gos]; subst.
  inversion Gos as [|o1 e1 os' es' G1 Gos']; subst.
  inversion Gos' as [|o2 e2 os'' es'' G2 Gos'']; subst. inversion Gos''; subst.
  cbn [foldr] in Hkb. cbn [zip_with].
  assert (Hib : Forall2 (fun ci di => 0 <= ci < di)
                  [c0 * xs + o0; c1 * ys + o1; c2 * ts + o2] [xi; yi; ti]).
  { repeat constructor; nia. }
  pose proof (linear_bounds _ _ Hib) as Hib2. cbn [foldr] in Hib2.
  rewrite (rd_take image (xi * yi * ti)) by lia.
  rewrite (rd_take filt (xf * yf * tf)) by lia. done.
Qed.

End KernelFootprint.

(** *** Properties of the MEX functions and of their kernels *)

(** X1: [dsqr] squares every element of a well-formed real double array in
    place, whatever its number of dimensions ([mxGetM * mxGetN] is the
    element count), and keeps its type and dimensions. *)
Theorem dsqr_squares_in_place (m : mxArray) :
  mx_wf m -> notDblMtx m = false ->
  Dsqr.mexFunction [m] = (Dsqr.Done, [set_pr m (map (fun x => x * x)%float (mx_pr m))]).
Proof.
  intros Hwf Hm. pose proof (numel_wf _ Hwf) as Hn. destruct Hwf as (_ & _ & _ & Hlen).
  unfold Dsqr.mexFunction. rewrite Hm, Hn. do 3 f_equal.
  apply list_eq. intros j. unfold for_lt. rewrite Z.sub_0_r.
  rewrite loop_square by lia. change (map ?f ?l) with (f <$> l). rewrite list_lookup_fmap.
  destruct (decide _) as [Hj|Hj]; [done|].
  rewrite lookup_ge_None_2 by lia. done.
Qed.

Lemma dsqr_squares_in_place_witness :
  Dsqr.mexFunction [dbl [1; 2; 2] [1; -2; 3; 0.5]%float] =
  (Dsqr.Done, [set_pr (dbl [1; 2; 2] [1; -2; 3; 0.5]%float)
                 (map (fun x => x * x)%float [1; -2; 3; 0.5]%float)]).
Proof.
  apply dsqr_squares_in_place; [|reflexivity].
  unfold mx_wf, max_numel; simpl; repeat split; repeat constructor; lia.
Defined.

(** X2: [range2] on a well-formed non-empty real double array returns two
    elements of the array (NaNs included: no value is made up). *)
Theorem range2_returns_elements (a : mxArray) :
  mx_wf a -> notDblMtx a = false -> mx_pr a <> [] ->
  exists minVal maxVal,
    Range2.mexFunction [a] = Range2.Ok minVal maxVal /\
    In minVal (mx_pr a) /\ In maxVal (mx_pr a).
Proof.
  intros Hwf Hm Hne. pose proof (numel_wf _ Hwf) as Hn. destruct Hwf as (_ & _ & _ & Hlen).
  unfold Range2.mexFunction. rewrite Hm, Hn. cbn iota.
  rewrite <- Hlen in *. destruct (mx_pr a) as [|x0 xs] eqn:Ea; [done|]. cbn [lookup list_lookup].
  assert (HP : (fun mm : float * float => In mm.1 (x0 :: xs) /\ In mm.2 (x0 :: xs))
                 (for_lt 1 (Z.of_nat (length (x0 :: xs))) (Range2.scan_step (x0 :: xs)) (x0, x0))).
  { unfold for_lt. apply (loop_ind (fun _ mm => In mm.1 (x0 :: xs) /\ In mm.2 (x0 :: xs)));
      [cbn; split; by left|].
    intros k [mn mx] Hk [Hmn Hmx].
    assert (In (rd 0%float (x0 :: xs) k) (x0 :: xs)) by (apply rd_in; lia).
    unfold Range2.scan_step. repeat case_match; cbn; auto. }
  destruct (for_lt _ _ _ _) as [mn mx]. exists mn, mx. done.
Qed.

Lemma range2_returns_elements_witness :
  exists minVal maxVal,
    Range2.mexFunction [dbl [2; 2] [3; 1; 5; 9]%float] = Range2.Ok minVal maxVal /\
    In minVal [3; 1; 5; 9]%float /\ In maxVal [3; 1; 5; 9]%float.
Proof.
  apply (range2_returns_elements (dbl [2; 2] [3; 1; 5; 9]%float)); [|reflexivity|discriminate].
  unfold mx_wf, max_numel; simpl; repeat split; repeat constructor; lia.
Defined.

(** X3: on a well-formed non-empty real double array without NaN, [range2]
    returns a minimum and a maximum: every element lies between them (the
    [else if] never misses a new maximum). *)
Theorem range2_min_max (a : mxArray) :
  mx_wf a -> notDblMtx a = false -> mx_pr a <> [] ->
  Forall (fun x => PrimFloat.is_nan x = false) (mx_pr a) ->
  exists minVal maxVal,
    Range2.mexFunction [a] = Range2.Ok minVal maxVal /\
    Forall (fun x => (minVal <=? x)%float = true /\ (x <=? maxVal)%float = true) (mx_pr a).
Proof.
  intros Hwf Hm Hne Hnan. pose proof (numel_wf _ Hwf) as Hn. destruct Hwf as (_ & _ & _ & Hlen).
  unfold Range2.mexFunction. rewrite Hm, Hn. cbn iota.
  rewrite <- Hlen in *. remember (mx_pr a) as l eqn:El. clear El.
  destruct l as [|x0 xs]; [done|]. cbn [lookup list_lookup].
  rewrite Forall_lookup in Hnan.
  set (Inv := fun (k : Z) (mm : float * float) =>
    1 <= k /\ PrimFloat.is_nan mm.1 = false /\ PrimFloat.is_nan mm.2 = false /\
    (mm.1 <=? mm.2)%float = true /\
    forall (j : nat) x, Z.of_nat j < k -> (x0 :: xs) !! j = Some x ->
      (mm.1 <=? x)%float = true /\ (x <=? mm.2)%float = true).
  assert (H0 : PrimFloat.is_nan x0 = false) by (apply (Hnan 0%nat); done).
  assert (HP : Inv (1 + Z.of_nat (Z.to_nat (Z.of_nat (length (x0 :: xs)) - 1)))
                 (for_lt 1 (Z.of_nat (length (x0 :: xs))) (Range2.scan_step (x0 :: xs)) (x0, x0))).
  { unfold for_lt. apply loop_ind.
    - cbn. split; [lia|]. split; [done|]. split; [done|]. split; [by apply fle_refl|].
      intros j x Hj Hx. assert (j = 0%nat) as -> by lia. injection Hx as <-.
      split; by apply fle_refl.
    - intros k [mn mx] Hk (Hk1 & Hmn & Hmx & Hle & Hall). cbn [fst snd] in *.
      set (temp := rd 0%float (x0 :: xs) k).
      assert (Ht : (x0 :: xs) !! Z.to_nat k = Some temp) by (apply rd_some; lia).
      assert (Htn : PrimFloat.is_nan temp = false) by (eapply Hnan; eassumption).
      assert (Hjk : forall (j : nat) x, Z.of_nat j < k + 1 -> (x0 :: xs) !! j = Some x ->
                      x = temp \/ Z.of_nat j < k).
      { intros j x Hj Hx. destruct (decide (Z.of_nat j = k)) as [<-|Hne'].
        - left. rewrite Nat2Z.id in Ht. congruence.
        - right. lia. }
      unfold Range2.scan_step. fold temp. unfold Inv.
      destruct (temp <? mn)%float eqn:E1; [|destruct (mx <? temp)%float eqn:E2];
        cbn [fst snd]; (split; [lia|]).
      + assert (Htm : (temp <=? mn)%float = true) by (by apply flt_le).
        assert (Htx : (temp <=? mx)%float = true) by (apply (fle_trans temp mn mx); done).
        do 3 (split; [done|]). intros j x Hj Hx.
        destruct (Hjk j x Hj Hx) as [->|Hj'].
        * split; [by apply fle_refl|done].
        * destruct (Hall j x Hj' Hx) as [H1 H2]. split; [|done].
          apply (fle_trans temp mn x); try done. by apply (Hnan j).
      + assert (Hmt : (mn <=? temp)%float = true) by (by apply fnlt_le).
        assert (Hxt : (mx <=? temp)%float = true) by (by apply flt_le).
        do 3 (split; [done|]). intros j x Hj Hx.
        destruct (Hjk j x Hj Hx) as [->|Hj'].
        * split; [done|by apply fle_refl].
        * destruct (Hall j x Hj' Hx) as [H1 H2]. split; [done|].
          apply (fle_trans x mx temp); try done. by apply (Hnan j).
      + assert (Hmt : (mn <=? temp)%float = true) by (by apply fnlt_le).
        assert (Htx : (temp <=? mx)%float = true) by (by apply fnlt_le).
        do 3 (split; [done|]). intros j x Hj Hx.
        destruct (Hjk j x Hj Hx) as [->|Hj']; [done|]. apply (Hall j x Hj' Hx). }
  destruct (for_lt _ _ _ _) as [mn mx]. exists mn, mx. split; [done|].
  destruct HP as (_ & _ & _ & _ & Hall). apply Forall_lookup. intros j x Hx.
  apply (Hall j x); [|done]. apply lookup_lt_Some in Hx. cbn [length] in *. lia.
Qed.

Lemma range2_min_max_witness :
  exists minVal maxVal,
    Range2.mexFunction [dbl [1; 4] [3; -1; 5; 9]%float] = Range2.Ok minVal maxVal /\
    Forall (fun x => (minVal <=? x)%float = true /\ (x <=? maxVal)%float = true)
      [3; -1; 5; 9]%float.
Proof.
  apply (range2_min_max (dbl [1; 4] [3; -1; 5; 9]%float)); [|reflexivity|discriminate|].
  - unfold mx_wf, max_numel; simpl; repeat split; repeat constructor; lia.
  - repeat constructor.
Defined.

(** X4: when the first element of the array is a NaN, every comparison of
    the scan is false and [range2] returns that NaN as both the minimum and
    the maximum, whatever the other elements. *)
Theorem range2_nan_first (a : mxArray) (x0 : float) (xs : list float) :
  notDblMtx a = false -> mx_pr a = x0 :: xs -> PrimFloat.is_nan x0 = true ->
  Range2.mexFunction [a] = Range2.Ok x0 x0.
Proof.
  intros Hm Ha Hx. unfold Range2.mexFunction. rewrite Hm. cbn iota. rewrite Ha.
  cbn [lookup list_lookup].
  assert (HP : for_lt 1 (u64 (mxGetM a * mxGetN a)) (Range2.scan_step (x0 :: xs)) (x0, x0)
               = (x0, x0)).
  { unfold for_lt. apply (loop_inv (fun mm => mm = (x0, x0))); [done|].
    intros k mm ->. unfold Range2.scan_step.
    rewrite ltb_nan_r, ltb_nan_l by done. done. }
  rewrite HP. done.
Qed.

Lemma range2_nan_first_witness :
  Range2.mexFunction [dbl [1; 3] [nan; -1; 5]%float] = Range2.Ok nan nan.
Proof. apply (range2_nan_first _ nan [-1; 5]%float); reflexivity. Defined.

(** X5: [internal_pointop] never prints an extrapolation warning and never
    clears [l_unwarned] or [r_unwarned]: the [index < 0] test on the
    unsigned [index] is always false. *)
Theorem internal_pointop_never_warns (im res0 : list float) (size : Z) (lut : list float)
    (lutsize : Z) (origin increment : float) (warnings : Z) (st : PointOp.state) :
  PointOp.internal_pointop im res0 size lut lutsize origin increment warnings = Some st ->
  PointOp.printed st = [] /\ PointOp.l_unwarned st = warnings /\
  PointOp.r_unwarned st = warnings.
Proof.
  set (Q := fun o : option PointOp.state => forall st, o = Some st ->
              PointOp.printed st = [] /\ PointOp.l_unwarned st = warnings /\
              PointOp.r_unwarned st = warnings).
  assert (Q0 : Q (Some (PointOp.State res0 warnings warnings []))).
  { intros st' [= <-]. done. }
  unfold PointOp.internal_pointop, for_lt. destruct (0 <? increment)%float.
  - apply (loop_inv Q); [done|]. intros k [st'|] HQ st'' E; [|discriminate].
    unfold PointOp.interp_step in E.
    destruct (cast_size_t _) as [z|] eqn:Ec; [|discriminate].
    apply cast_size_t_nonneg in Ec. destruct (Z.ltb_spec z 0); [lia|].
    injection E as <-. cbn. by apply HQ.
  - apply (loop_inv Q); [done|]. intros k [st'|] HQ st'' E; [|discriminate].
    injection E as <-. cbn. by apply HQ.
Qed.

Lemma internal_pointop_never_warns_witness :
  PointOp.printed (PointOp.State [15; 25]%float 1 1 []) = [] /\
  PointOp.l_unwarned (PointOp.State [15; 25]%float 1 1 []) = 1 /\
  PointOp.r_unwarned (PointOp.State [15; 25]%float 1 1 []) = 1.
Proof.
  apply (internal_pointop_never_warns [1.5; 2.5]%float [0; 0]%float 2 [0; 10; 20; 30]%float 4
           0%float 1%float 1).
  vm_compute. reflexivity.
Defined.

(** With an [increment] that is not positive, [internal_pointop] fills the
    whole result buffer with [lut[0]]. *)
Lemma internal_pointop_const (im : list float) (n : Z) (l0 : float) (lrest : list float)
    (lutsize : Z) (origin increment : float) (warnings : Z) :
  0 <= n -> (0 <? increment)%float = false ->
  exists st,
    PointOp.internal_pointop im (replicate (Z.to_nat n) 0%float) n (l0 :: lrest) lutsize
      origin increment warnings = Some st /\
    PointOp.res st = replicate (Z.to_nat n) l0.
Proof.
  intros Hn Hpos. unfold PointOp.internal_pointop. rewrite Hpos. unfold for_lt.
  rewrite Z.sub_0_r. change (rd 0%float (l0 :: lrest) 0) with l0.
  destruct (pointop_const_loop l0 (Z.to_nat n) 0
              (PointOp.State (replicate (Z.to_nat n) 0%float) warnings warnings []))
    as [st' [Hst Hres]];
    [lia| cbn [PointOp.res]; rewrite length_replicate; lia |].
  exists st'. split; [exact Hst|].
  apply list_eq. intros j. rewrite Hres. cbn [PointOp.res].
  destruct (decide _) as [Hj|Hj].
  - rewrite lookup_replicate_2; [done|lia].
  - rewrite !lookup_ge_None_2; [done| rewrite length_replicate; lia | rewrite length_replicate; lia].
Qed.

(** X7: [pointOp] with well-formed arguments, a row or column vector LUT,
    an [INCREMENT] that is not positive and, if given, a real scalar
    [WARNINGS] whose value converts to an [int], returns an [M]-by-[N]
    matrix ([N] the product of the image's trailing dimensions) whose every
    element is [lut[0]]. *)
Theorem pointOp_mex_nonpositive_increment (image lut org inc : mxArray) (rest : list mxArray)
    (l0 : float) (lrest : list float) (c : float) :
  mx_wf image -> notDblMtx image = false ->
  notDblMtx lut = false -> (mxGetM lut = 1 \/ mxGetN lut = 1) -> mx_pr lut = l0 :: lrest ->
  notDblMtx org = false -> mxGetNumberOfElements org = 1 ->
  notDblMtx inc = false -> mxGetNumberOfElements inc = 1 -> mx_pr inc !! 0%nat = Some c ->
  (0 <? c)%float = false ->
  match rest with
  | [] => True
  | w :: _ => notDblMtx w = false /\ mxGetNumberOfElements w = 1 /\
              exists k, cast_int (default 0%float (mx_pr w !! 0%nat)) = Some k
  end ->
  PointOpMex.mexFunction (image :: lut :: org :: inc :: rest) =
  PointOpMex.Ok [mxGetM image; mxGetN image]
    (replicate (Z.to_nat (foldr Z.mul 1 (mx_dims image))) l0).
Proof.
  intros Hwf Him Hlut Hshape Hl Horg Hon Hinc Hin Hc Hpos Hw.
  pose proof (numel_wf _ Hwf) as Hn. destruct Hwf as (_ & Hnn & _ & _).
  assert (Hsz : 0 <= foldr Z.mul 1 (mx_dims image)).
  { clear -Hnn. induction Hnn; simpl; lia. }
  assert (Hsh : negb (mxGetM lut =? 1) && negb (mxGetN lut =? 1) = false).
  { destruct Hshape as [E|E]; rewrite E; [done|apply andb_false_r]. }
  unfold PointOpMex.mexFunction. rewrite Him, Hlut, Hsh, Horg, Hon, Hinc, Hin, Hc.
  destruct rest as [|w rest'];
    [|destruct Hw as (Hw1 & Hw2 & k & Hk); rewrite Hw1, Hw2, Hk].
  all: cbn [negb orb andb default from_option id Z.eqb Pos.eqb]; rewrite Hn, Hl.
  all: lazymatch goal with
       | |- context [PointOp.internal_pointop ?im _ _ _ ?ls ?o ?i ?wn] =>
           destruct (internal_pointop_const im (foldr Z.mul 1 (mx_dims image)) l0 lrest
                       ls o i wn Hsz Hpos) as [st [Hst Hres]]
       end.
  all: rewrite Hst, Hres; reflexivity.
Qed.

Lemma pointOp_mex_nonpositive_increment_witness :
  PointOpMex.mexFunction [dbl [2; 1; 2] [1; 2; 3; 4]%float; dbl [3; 1] [7; 8; 9]%float;
                          dbl [1; 1] [0%float]; dbl [1; 1] [(-1)%float];
                          dbl [1; 1] [0%float]] =
  PointOpMex.Ok [2; 2] (replicate (Z.to_nat 4) 7%float).
Proof.
  apply (pointOp_mex_nonpositive_increment (dbl [2; 1; 2] [1; 2; 3; 4]%float)
           (dbl [3; 1] [7; 8; 9]%float) (dbl [1; 1] [0%float]) (dbl [1; 1] [(-1)%float])
           [dbl [1; 1] [0%float]] 7%float [8; 9]%float (-1)%float);
    try reflexivity.
  - unfold mx_wf, max_numel; simpl; repeat split; repeat constructor; lia.
  - right. reflexivity.
  - split; [reflexivity|]. split; [reflexivity|]. exists 0. reflexivity.
Defined.

(** X8: a defined run of [valid_filter] keeps the length of [result] and
    never modifies an element at or past the number of outputs
    [max(0, x_res_dim) * max(0, y_res_dim) * max(0, t_res_dim)]; when an
    output extent is not positive (a kernel longer than the input by at
    least a step) it modifies nothing. *)
Theorem valid_filter_writes_only_outputs (image filt result r : list float)
    (xi yi ti xf yf tf xs ys ts : Z) (j : nat) :
  valid_filter_d image xi yi ti filt xf yf tf xs ys ts result = Some r ->
  Z.max 0 (res_dim xi xf xs) * Z.max 0 (res_dim yi yf ys) * Z.max 0 (res_dim ti tf ts)
    <= Z.of_nat j ->
  length r = length result /\ r !! j = result !! j.
Proof.
  intros Hr Hj. unfold valid_filter_d in Hr. apply valid_filter_refine in Hr as ->. split.
  - rewrite valid_filter_fold. apply fold_wr_length.
  - by apply valid_filter_outside.
Qed.

Lemma valid_filter_writes_only_outputs_witness :
  valid_filter_d [1; 2; 3]%float 3 1 1 [1; 1; 1; 1; 1]%float 5 1 1 1 1 1 [4; 4]%float =
    Some [4; 4]%float /\
  length [4; 4]%float = length [4; 4]%float /\ [4; 4]%float !! 0%nat = [4; 4]%float !! 0%nat.
Proof.
  assert (H : valid_filter_d [1; 2; 3]%float 3 1 1 [1; 1; 1; 1; 1]%float 5 1 1 1 1 1
                [4; 4]%float = Some [4; 4]%float) by (vm_compute; reflexivity).
  split; [exact H|].
  apply (valid_filter_writes_only_outputs _ _ _ _ 3 1 1 5 1 1 1 1 1 0 H).
  vm_compute. discriminate.
Defined.

(** X9: under the preconditions of the kernel ([fdim <= idim], [step >= 1]),
    [valid_filter] reads only the first [x_idim * y_idim * t_idim] image
    elements and the first [x_fdim * y_fdim * t_fdim] filter elements: any
    later data (further slices of a 4-D array) never affects the result. *)
Theorem valid_filter_reads_first_slices (image filt result : list float)
    (xi yi ti xf yf tf xs ys ts : Z) :
  0 <= xf <= xi -> 0 <= yf <= yi -> 0 <= tf <= ti -> 1 <= xs -> 1 <= ys -> 1 <= ts ->
  valid_filter_d image xi yi ti filt xf yf tf xs ys ts result =
  valid_filter_d (take (Z.to_nat (xi * yi * ti)) image) xi yi ti
    (take (Z.to_nat (xf * yf * tf)) filt) xf yf tf xs ys ts result.
Proof.
  intros Hx Hy Ht Hxs Hys Hts. unfold valid_filter_d.
  set (image' := take (Z.to_nat (xi * yi * ti)) image).
  set (filt' := take (Z.to_nat (xf * yf * tf)) filt).
  destruct (valid_filter 0%float PrimFloat.add PrimFloat.mul image xi yi ti filt
              xf yf tf xs ys ts result) as [r|] eqn:E1.
  - destruct (valid_filter 0%float PrimFloat.add PrimFloat.mul image' xi yi ti filt'
                xf yf tf xs ys ts result) as [r'|] eqn:E2.
    + apply valid_filter_refine in E1, E2. subst r r'. f_equal.
      unfold image', filt'. apply valid_filter_take; lia.
    + pose proof (proj1 (valid_filter_none_iff 0%float PrimFloat.add PrimFloat.mul
                           image' image filt' filt result result
                           xi yi ti xf yf tf xs ys ts) E2) as E3.
      congruence.
  - symmetry.
    exact (proj1 (valid_filter_none_iff 0%float PrimFloat.add PrimFloat.mul
                    image image' filt filt' result result xi yi ti xf yf tf xs ys ts) E1).
Qed.

Lemma valid_filter_reads_first_slices_witness :
  valid_filter_d [1; 2; 3; 4]%float 2 1 1 [1; 100]%float 1 1 1 1 1 1 [0; 0]%float =
  valid_filter_d (take (Z.to_nat (2 * 1 * 1)) [1; 2; 3; 4]%float) 2 1 1
    (take (Z.to_nat (1 * 1 * 1)) [1; 100]%float) 1 1 1 1 1 1 [0; 0]%float.
Proof. apply valid_filter_reads_first_slices; lia. Defined.

(** X11: [validCorrDn3] with two arguments (default step 1) on a 4-D image
    of extents [xi, yi, ti, T], [T >= 2], with fewer than [2^31] elements
    per slice, and a kernel no larger than the image on the first three
    axes, returns an array of extents [xi-xf+1, yi-yf+1, ti-tf+1, T] in
    which every element past the first [(xi-xf+1) * (yi-yf+1) * (ti-tf+1)]
    is the [0] of the allocation: only the first slice along the fourth
    axis is ever computed. *)
Theorem validCorrDn3_later_slices_zero (img filt : mxArray) (xi yi ti T xf yf tf T' : Z) :
  mx_double img = true -> mx_sparse img = false -> mx_complex img = false ->
  mx_double filt = true -> mx_sparse filt = false -> mx_complex filt = false ->
  ValidCorrDn3.read_dims img = [xi; yi; ti; T] ->
  ValidCorrDn3.read_dims filt = [xf; yf; tf; T'] ->
  1 <= xf <= xi -> 1 <= yf <= yi -> 1 <= tf <= ti ->
  xi * yi * ti < 2 ^ 31 -> 2 <= T -> xi * yi * ti * T <= max_numel ->
  exists data,
    ValidCorrDn3.mexFunction [img; filt] =
      ValidCorrDn3.Ok ([xi - xf + 1; yi - yf + 1; ti - tf + 1; T], data) /\
    forall j : nat, (j < length data)%nat ->
      (xi - xf + 1) * (yi - yf + 1) * (ti - tf + 1) <= Z.of_nat j ->
      data !! j = Some 0%float.
Proof.
  intros Hd Hs Hc Hd' Hs' Hc' Hi Hf Hx Hy Ht Hn HT Hmax.
  assert (xi <= xi * yi /\ yi <= xi * yi) as [? ?] by nia.
  assert (xi * yi <= xi * yi * ti /\ ti <= xi * yi * ti) as [? ?] by nia.
  unfold ValidCorrDn3.mexFunction, ValidCorrDn3.validateInputs.
  rewrite Hd, Hs, Hc, Hd', Hs', Hc', Hi, Hf. cbn [negb orb ValidCorrDn3.bind].
  unfold ValidCorrDn3.calculateOutputDimensions. cbn [lookup list_lookup default from_option id].
  rewrite !calc_dim_floor by lia. rewrite !Z.div_1_r.
  unfold ValidCorrDn3.mxCreateNumericArray.
  rewrite (proj2 (Z.ltb_ge _ _)).
  2:{ cbn [foldr].
      assert ((xi - xf + 1) * (yi - yf + 1) <= xi * yi)
        by (apply Z.mul_le_mono_nonneg; lia).
      assert ((xi - xf + 1) * (yi - yf + 1) * (ti - tf + 1) <= xi * yi * ti)
        by (apply Z.mul_le_mono_nonneg; nia).
      nia. }
  cbn [ValidCorrDn3.bind].
  replace (mx_create_dims [xi - xf + 1; yi - yf + 1; ti - tf + 1; T])
    with [xi - xf + 1; yi - yf + 1; ti - tf + 1; T]
    by (unfold mx_create_dims; cbn; destruct (Z.eqb_spec T 1); [lia|done]).
  unfold ValidCorrDn3.performValidCorrelation. cbn [lookup list_lookup default from_option id].
  rewrite !to_int32_small by lia. unfold valid_filter_d.
  rewrite valid_filter_defined_within by lia.
  eexists. split; [reflexivity|]. intros j Hj Hge.
  rewrite valid_filter_outside.
  - apply lookup_replicate_2.
    rewrite valid_filter_fold, fold_wr_length, length_replicate in Hj. done.
  - unfold res_dim. rewrite !Z.quot_1_r. rewrite !Z.max_r by lia. lia.
Qed.

Lemma validCorrDn3_later_slices_zero_witness :
  exists data,
    ValidCorrDn3.mexFunction [dbl [2; 1; 1; 3] [1; 2; 3; 4; 5; 6]%float; dbl [1; 1] [1%float]] =
      ValidCorrDn3.Ok ([2 - 1 + 1; 1 - 1 + 1; 1 - 1 + 1; 3], data) /\
    forall j : nat, (j < length data)%nat ->
      (2 - 1 + 1) * (1 - 1 + 1) * (1 - 1 + 1) <= Z.of_nat j ->
      data !! j = Some 0%float.
Proof.
  apply (validCorrDn3_later_slices_zero (dbl [2; 1; 1; 3] [1; 2; 3; 4; 5; 6]%float)
           (dbl [1; 1] [1%float]) 2 1 1 3 1 1 1 1); try reflexivity; unfold max_numel; lia.
Defined.
